(** * GLV scalar decomposition: the basis-reduction loop and
      [get_endomorphism_scalar_decomposition] of
      [src/plonk/circuit/curve_new/sage_gen_script.py]

    The script is a Sage program: integer literals are Sage [Integer]s
    (arbitrary precision), [a / b] on integers is the exact [Rational],
    [int] of a rational truncates toward zero, [round] of a rational is
    [Rational.round] in its default mode, [^] is exponentiation and
    [n.nbits()] is the bit length of [|n|].  Integers are modelled as [Z],
    rationals as [Q] kept in lowest terms, exceptions as a result type. *)

From Stdlib Require Import ZArith QArith Lia Bool List.
Import ListNotations.

Local Open Scope Z_scope.

(** ** Exceptions and the result monad *)

Inductive exn : Type :=
| ZeroDivisionError
| AssertionError
| ValueError
| IndexError.

Inductive result (A : Type) : Type :=
| Ok (a : A)
| Raise (e : exn).

Arguments Ok {A} a.
Arguments Raise {A} e.

Definition bind {A B : Type} (m : result A) (f : A -> result B) : result B :=
  match m with
  | Ok a => f a
  | Raise e => Raise e
  end.

Notation "x <- m ;; k" := (bind m (fun x => k))
  (at level 61, m at next level, right associativity).

Definition assert (b : bool) : result unit :=
  if b then Ok tt else Raise AssertionError.

(** ** The Sage primitives the script relies on *)

Module Sage.

(** [Integer.nbits]: number of bits of [|n|], and [0] for [n = 0]. *)
Definition nbits (n : Z) : Z :=
  if n =? 0 then 0 else Z.log2 (Z.abs n) + 1.

(** [Integer.isqrt]: floor of the square root, and [ValueError] for a
    negative integer. *)
Definition isqrt (n : Z) : result Z :=
  if n <? 0 then Raise ValueError else Ok (Z.sqrt n).

(** [n / d] on integers: the exact rational in lowest terms, and
    [ZeroDivisionError] for [d = 0]. *)
Definition quotient (n d : Z) : Q := Qred (inject_Z n / inject_Z d).

Definition div (n d : Z) : result Q :=
  if d =? 0 then Raise ZeroDivisionError else Ok (quotient n d).

(** [int(x)] on a rational: truncation toward zero. *)
Definition int (x : Q) : Z := Z.quot (Qnum x) (Z.pos (Qden x)).

(** [round(x)] on a rational, that is [Rational.round] with its default
    mode: an integer is returned as it is; a half-integer (denominator
    2) goes to the floor when negative and to the ceiling otherwise; any
    other fraction goes to [q] or [q + 1] for [q, r = quo_rem(num, den)]
    according to [r < den / 2]. *)
Definition round (x : Q) : Z :=
  let n := Qnum x in
  let d := Z.pos (Qden x) in
  if d =? 1 then n
  else if d =? 2 then (if n <? 0 then n / d else - ((- n) / d))
  else if 2 * (n mod d) <? d then n / d else n / d + 1.

End Sage.

(** ** The group orders of class [Params] (lines 12-36) *)

Module Params.

Definition BN256_Fr : Z :=
  21888242871839275222246405745257275088548364400416034343698204186575808495617.

Definition BLS12_Fr : Z :=
  52435875175126190479447740508185965837690552500527637822603658699938581184513.






End Params.

(** ** Basis reduction (lines 166-200) *)

Module Reducer.

(** The variables the [while True] loop updates. *)
Record state : Type := mkState
  { u : Z; v : Z; x1 : Z; y1 : Z; x2 : Z; y2 : Z }.

(** The four numbers the loop leaves behind. *)
Record basis : Type := mkBasis
  { a1 : Z; b1 : Z; a2 : Z; b2 : Z }.

(** Lines 167-169. *)
Definition init (Fr Lambda : Z) : state :=
  mkState Fr Lambda 1 0 0 1.

(** Line 166: the value of [bound] when [isqrt] returns one, that is for
    [Fr >= 0]. *)
Definition bound (Fr : Z) : Z := Z.sqrt Fr.

(** Lines 171-180: one division step and the rotation of the variables.
    The remainder [r] of the step is the [u] of the state returned. *)
Definition rotate (s : state) : result state :=
  w <- Sage.div (v s) (u s) ;;
  let q := Sage.int w in
  let r := v s - q * u s in
  let x := x2 s - q * x1 s in
  let y := y2 s - q * y1 s in
  Ok (mkState r (u s) x y (x1 s) (y1 s)).

(** Lines 183-199: the body of [if r < bound], run on the rotated
    state. *)
Definition select (Fr Lambda : Z) (s : state) : result basis :=
  let a1 := u s in
  let b1 := - y1 s in
  let r_l := x2 s * Fr + y2 s * Lambda in
  let t_l := y2 s in
  w <- Sage.div (v s) (u s) ;;
  let q := Sage.int w in
  let r_l2 := v s - q * u s in
  let y_l2 := y2 s - q * y1 s in
  if r_l ^ 2 + t_l ^ 2 <=? r_l2 ^ 2 + y_l2 ^ 2
  then Ok (mkBasis r_l (- t_l) a1 b1)
  else Ok (mkBasis a1 b1 r_l2 (- y_l2)).

(** Lines 170-200: the loop, run for at most [fuel] iterations; [None]
    when the iterations are used up before the loop is left. *)
Fixpoint loop (fuel : nat) (Fr Lambda : Z) (s : state)
  : option (result basis) :=
  match fuel with
  | O => None
  | S fuel' =>
      match rotate s with
      | Raise e => Some (Raise e)
      | Ok s' =>
          if u s' <? bound Fr then Some (select Fr Lambda s')
          else loop fuel' Fr Lambda s'
      end
  end.

(** Lines 166-200: [bound] is computed, which raises for a negative
    [Fr], and the loop is run from the initial state. *)
Definition basis_reduction (fuel : nat) (Fr Lambda : Z)
  : option (result basis) :=
  match Sage.isqrt Fr with
  | Raise e => Some (Raise e)
  | Ok _ => loop fuel Fr Lambda (init Fr Lambda)
  end.

(** The states with which the loop body is entered. *)
Inductive at_head (Fr Lambda : Z) : state -> Prop :=
| head_init : at_head Fr Lambda (init Fr Lambda)
| head_next (s s' : state) :
    at_head Fr Lambda s ->
    rotate s = Ok s' ->
    (u s' <? bound Fr) = false ->
    at_head Fr Lambda s'.

(** The division steps alone, with no test: the state after [n]
    rotations. *)
Fixpoint rotations (n : nat) (s : state) : result state :=
  match n with
  | O => Ok s
  | S n' => s' <- rotations n' s ;; rotate s'
  end.

(** Lines 217-220; the divisor is the literal 2. *)
Definition max_norm_squared (B : basis) : Z :=
  let v_1_norm_squared := a1 B ^ 2 + b1 B ^ 2 in
  let v_2_norm_squared := a2 B ^ 2 + b2 B ^ 2 in
  Z.max v_1_norm_squared v_2_norm_squared.

Definition limit (B : basis) : Z :=
  Sage.int (Sage.quotient (Sage.nbits (max_norm_squared B) + 1) 2).

End Reducer.

(** ** Scalar decomposition (lines 224-235) *)

Module Decomposer.

Import Reducer.

(** The globals the function reads: [params.Fr], the basis and
    [limit]. *)
Record globals : Type := mkGlobals
  { Fr : Z; vecs : basis; limit : Z }.

(** Lines 225-226. *)
Definition coefficients (G : globals) (k : Z) : result (Z * Z) :=
  w1 <- Sage.div (b2 (vecs G) * k) (Fr G) ;;
  let c1 := Sage.round w1 in
  w2 <- Sage.div (- b1 (vecs G) * k) (Fr G) ;;
  let c2 := Sage.round w2 in
  Ok (c1, c2).

(** Lines 227-228, before the conditional replacement. *)
Definition raw_pair (G : globals) (c : Z * Z) (k : Z) : Z * Z :=
  let (c1, c2) := c in
  let k1 := k - c1 * a1 (vecs G) - c2 * a2 (vecs G) in
  let k2 := - c1 * b1 (vecs G) - c2 * b2 (vecs G) in
  (k1, k2).

(** Lines 229-232, for one component. *)
Definition replace (G : globals) (k : Z) : Z :=
  if Sage.nbits k >? limit G then Fr G - k else k.

Definition get_endomorphism_scalar_decomposition (G : globals) (k : Z)
  : result (Z * Z) :=
  c <- coefficients G k ;;
  let (k1, k2) := raw_pair G c k in
  let k1 := replace G k1 in
  let k2 := replace G k2 in
  _ <- assert (Sage.nbits k1 <=? limit G) ;;
  _ <- assert (Sage.nbits k2 <=? limit G) ;;
  Ok (k1, k2).

(** The globals as the script sets them up from a basis. *)
Definition globals_of (Fr : Z) (B : basis) : globals :=
  mkGlobals Fr B (Reducer.limit B).

End Decomposer.

Import Reducer Decomposer.

(** ** The formulas of the specification, for comparison *)

Module Spec.

(** Ceiling of [a / 2]. *)
Definition ceil_half (a : Z) : Z := - ((- a) / 2).

(** The bound as the data model words it:
    [ceil((ceil(log2 m) + 1) / 2)] for the larger squared norm [m]. *)
Definition limit (B : basis) : Z :=
  ceil_half (Z.log2_up (max_norm_squared B) + 1).

(** The three candidate vectors of basis construction, read off the
    state [s] at which the recurrence stops and the state [s2] one
    further division step yields. *)
Definition first_candidate (s : state) : Z * Z := (u s, - y1 s).

Definition pre_stop_candidate (Fr Lambda : Z) (s : state) : Z * Z :=
  let r_l := x2 s * Fr + y2 s * Lambda in
  let t_l := y2 s in
  (r_l, - t_l).

Definition next_candidate (s2 : state) : Z * Z := (u s2, - y1 s2).

Definition norm2 (w : Z * Z) : Z := fst w ^ 2 + snd w ^ 2.

(** The tie-break between the two alternates. *)
Definition choose (c1 pre nxt : Z * Z) : basis :=
  if norm2 pre <=? norm2 nxt
  then mkBasis (fst pre) (snd pre) (fst c1) (snd c1)
  else mkBasis (fst c1) (snd c1) (fst nxt) (snd nxt).

(** The recurrence stops at step [n]: the remainder of step [n] is the
    first one below the bound. *)
Definition stops_at (Fr Lambda : Z) (n : nat) (s : state) : Prop :=
  (1 <= n)%nat /\
  rotations n (init Fr Lambda) = Ok s /\
  u s < bound Fr /\
  forall (m : nat) (sm : state),
    (1 <= m < n)%nat -> rotations m (init Fr Lambda) = Ok sm ->
    bound Fr <= u sm.

(** Membership in the target sublattice. *)
Definition in_lattice (Fr Lambda : Z) (a b : Z) : Prop :=
  (a + b * Lambda) mod Fr = 0.

(** The state a division step leads to when the divisor is not zero:
    the quotient is the truncated one. *)
Definition rotated (s : state) : state :=
  let q := Z.quot (v s) (u s) in
  mkState (v s - q * u s) (u s)
          (x2 s - q * x1 s) (y2 s - q * y1 s) (x1 s) (y1 s).

(** The relation the coefficient pairs keep with the remainders. *)
Definition bezout (Fr Lambda : Z) (s : state) : Prop :=
  u s = x1 s * Fr + y1 s * Lambda /\ v s = x2 s * Fr + y2 s * Lambda.

(** After the first step the remainders decrease and the [y]
    coefficients alternate in sign. *)
Definition alternating (s : state) : Prop :=
  0 <= u s < v s /\ y1 s <> 0 /\ y1 s * y2 s <= 0.

(** What keeps the loop away from the division by zero. *)
Definition coprime_state (s : state) : Prop :=
  2 <= u s /\ 0 <= v s /\ Z.gcd (u s) (v s) = 1.

Definition nonzero (a b : Z) : Prop := a <> 0 \/ b <> 0.

(** The sign the conditional replacement leaves on a component: [-1]
    where [Fr - k] was taken for [k], [1] where [k] was kept. *)
Definition sign_kept (G : globals) (k : Z) : Z :=
  if Sage.nbits k >? Decomposer.limit G then -1 else 1.

(** The coefficient pairs form a matrix of determinant [1] or [-1]. *)
Definition unimodular (s : state) : Prop :=
  x1 s * y2 s - x2 s * y1 s = 1 \/ x1 s * y2 s - x2 s * y1 s = -1.

(** The determinant of the two vectors. *)
Definition det (B : basis) : Z := a1 B * b2 B - a2 B * b1 B.

(** Round to nearest on the exact quotient [n / d], [d > 0], a tie going
    away from zero: [c] is within one half of [n / d], and at exactly
    one half it is the candidate of larger magnitude. *)
Definition nearest_half_away (n d c : Z) : Prop :=
  2 * Z.abs (c * d - n) <= d /\
  (2 * Z.abs (c * d - n) = d -> Z.abs n < Z.abs c * d).

End Spec.

(** ** The order of the curve over the extension and the cofactor of the
      offset generator (lines 62-64, 84-90 and 122-126) *)

Module Offset.

(** Lines 63-64. *)
Definition cofactor (Fq num_of_points : Z) : Z := 2 * Fq + 2 - num_of_points.

Definition num_of_points_ext (Fq Fr num_of_points : Z) : Z :=
  Fr * cofactor Fq num_of_points.

(** [enumerate(l)]: the elements paired with their positions. *)
Fixpoint enumerate_from {A : Type} (i : Z) (l : list A) : list (Z * A) :=
  match l with
  | [] => []
  | x :: l' => (i, x) :: enumerate_from (i + 1) l'
  end.

Definition enumerate {A : Type} (l : list A) : list (Z * A) :=
  enumerate_from 0 l.

(** [l[-n]] for [n >= 1]: the [n]-th element from the end, and [None]
    where Python raises [IndexError]. *)
Definition neg_index {A : Type} (l : list A) (n : nat) : option A :=
  if (n <=? length l)%nat then nth_error l (length l - n) else None.

(** The lambda of lines 87-89; [x] is a pair (prime, exponent). *)
Definition drop_one_of_last (last : Z) (acc : Z) (ix : Z * (Z * Z)) : Z :=
  let (i, x) := ix in
  if negb (i =? last) then acc * fst x ^ snd x
  else acc * fst x ^ (snd x - 1).

(** [l[-n]] as the script evaluates it. *)
Definition index_from_end {A : Type} (l : list A) (n : nat) : result A :=
  match neg_index l n with
  | Some x => Ok x
  | None => Raise IndexError
  end.

(** Lines 84-90, for a curve of prime order: the pair
    [(offset_2_order, cofactor_2)] the lines leave behind. *)
Definition offset_prime_order (Fr : Z) (factors : list (Z * Z))
  : result (Z * Z) :=
  let last := Z.of_nat (length factors) - 1 in
  x <- index_from_end factors 1 ;;
  let offset_2_order := fst x in
  _ <- assert (negb (offset_2_order =? Fr)) ;;
  let cofactor_2 :=
    fold_left (drop_one_of_last last) (enumerate factors) 1 in
  let cofactor_2 := cofactor_2 * Fr in
  Ok (offset_2_order, cofactor_2).

(** The lambda of lines 124-126. *)
Definition skip_one (to_skip : Z) (acc : Z) (ix : Z * (Z * Z)) : Z :=
  let (i, x) := ix in
  if negb (i =? to_skip) then acc * fst x ^ snd x else acc.

(** Lines 122-126, for a curve whose order has a cofactor. *)
Definition offset_2_order_composite (factors : list (Z * Z)) : option Z :=
  option_map fst (neg_index factors 2).

Definition cofactor_2_composite (factors : list (Z * Z)) : Z :=
  let to_skip := Z.of_nat (length factors) - 2 in
  fold_left (skip_one to_skip) (enumerate factors) 1.

(** The number a factorisation stands for. *)
Fixpoint product (factors : list (Z * Z)) : Z :=
  match factors with
  | [] => 1
  | x :: l => fst x ^ snd x * product l
  end.

End Offset.

(** ** The test loop (lines 238-243) and the script from line 166 on *)

Module Tests.

Definition NUM_OF_TESTS : nat := 100.

(** The body is run [n] more times; [randint i] is the number the [i]-th
    call of [random.randint(0, params.Fr)] returns. *)
Fixpoint run_tests (G : globals) (randint : nat -> Z) (i n : nat)
  : result unit :=
  match n with
  | O => Ok tt
  | S n' =>
      _ <- get_endomorphism_scalar_decomposition G (randint i) ;;
      run_tests G randint (S i) n'
  end.

Definition tests (G : globals) (randint : nat -> Z) : result unit :=
  run_tests G randint 0 NUM_OF_TESTS.

(** Lines 166-243: the loop, the bound, the tests.  [None] when the loop
    is not left within [fuel] iterations. *)
Definition script (fuel : nat) (Fr Lambda : Z) (randint : nat -> Z)
  : option (result unit) :=
  match basis_reduction fuel Fr Lambda with
  | None => None
  | Some (Raise e) => Some (Raise e)
  | Some (Ok B) => Some (tests (globals_of Fr B) randint)
  end.

End Tests.

(** ** Further invariants of the recurrence *)

Module Euclid.

(** The classical relation between consecutive remainders and
    coefficients. *)
Definition cross_sum (Fr : Z) (s : state) : Prop :=
  u s * Z.abs (y2 s) + v s * Z.abs (y1 s) = Fr.

(** A vector with both components of the size of the square root. *)
Definition short (Fr a b : Z) : Prop :=
  0 < a < bound Fr /\ Z.abs b * bound Fr <= Fr.

End Euclid.

(** * Properties *)

(** ** The Sage primitives *)

Section SagePrimitives.

Lemma quotient_cross (n d : Z) :
  d <> 0 ->
  Qnum (Sage.quotient n d) * d = n * Z.pos (Qden (Sage.quotient n d)).
Proof.
  intros Hd. unfold Sage.quotient.
  pose proof (Qred_correct (inject_Z n / inject_Z d)) as E.
  assert (Hq : ~ inject_Z d == 0).
  { unfold Qeq, inject_Z; simpl. lia. }
  pose proof (Qmult_div_r (inject_Z n) (inject_Z d) Hq) as M.
  rewrite <- E in M. clear E.
  destruct (Qred (inject_Z n / inject_Z d)) as [N D].
  unfold Qeq, Qmult, inject_Z in M; simpl in *. lia.
Qed.

Lemma quotient_coprime (n d : Z) :
  Z.gcd (Qnum (Sage.quotient n d)) (Z.pos (Qden (Sage.quotient n d))) = 1.
Proof. apply gcd_Qred. Qed.

Lemma int_quotient (n d : Z) :
  d <> 0 -> Sage.int (Sage.quotient n d) = Z.quot n d.
Proof.
  intros Hd. pose proof (quotient_cross n d Hd) as C.
  unfold Sage.int.
  set (N := Qnum (Sage.quotient n d)) in *.
  set (D := Z.pos (Qden (Sage.quotient n d))) in *.
  assert (HD : D <> 0) by (subst D; lia).
  rewrite <- (Z.quot_mul_cancel_r N D d HD Hd).
  rewrite C, (Z.mul_comm D d).
  apply Z.quot_mul_cancel_r; assumption.
Qed.

Lemma round_reduced (x : Q) :
  Z.gcd (Qnum x) (Z.pos (Qden x)) = 1 ->
  2 * Z.abs (Sage.round x * Z.pos (Qden x) - Qnum x) <= Z.pos (Qden x) /\
  (2 * Z.abs (Sage.round x * Z.pos (Qden x) - Qnum x) = Z.pos (Qden x) ->
   Z.abs (Qnum x) < Z.abs (Sage.round x) * Z.pos (Qden x)).
Proof.
  destruct x as [N D]; cbn [Qnum Qden]. intros G.
  unfold Sage.round; cbn [Qnum Qden].
  set (d := Z.pos D) in *. assert (Hd : 0 < d) by (subst d; lia).
  destruct (Z.eqb_spec d 1) as [E1 | N1].
  - rewrite E1. split; [lia | intros T; lia].
  - destruct (Z.eqb_spec d 2) as [E2 | N2].
    + rewrite E2 in *.
      assert (Hodd : N mod 2 = 1).
      { pose proof (Z.mod_pos_bound N 2 ltac:(lia)) as B.
        destruct (Z.eq_dec (N mod 2) 0) as [Z0 | NZ]; [ | lia].
        exfalso. apply Z.mod_divide in Z0; [ | lia].
        pose proof (Z.gcd_greatest N 2 2 Z0 (Z.divide_refl 2)) as Dv.
        rewrite G in Dv. apply Z.divide_1_r_nonneg in Dv; lia. }
      pose proof (Z.div_mod N 2 ltac:(lia)) as DM.
      pose proof (Z.div_mod (- N) 2 ltac:(lia)) as DM'.
      pose proof (Z.mod_pos_bound (- N) 2 ltac:(lia)) as B'.
      destruct (Z.ltb_spec N 0); (split; [ | intros _ ]); lia.
    + pose proof (Z.div_mod N d ltac:(lia)) as DM.
      pose proof (Z.mod_pos_bound N d Hd) as B.
      destruct (Z.ltb_spec (2 * (N mod d)) d) as [Lt | Ge].
      * split; [ | intros T]; nia.
      * assert (Hne : 2 * (N mod d) <> d).
        { intros T.
          assert (D1 : (N mod d | d)) by (exists 2; lia).
          assert (D2 : (N mod d | N)).
          { exists (2 * (N / d) + 1). nia. }
          pose proof (Z.gcd_greatest N d (N mod d) D2 D1) as Dv.
          rewrite G in Dv. apply Z.divide_1_r_nonneg in Dv; lia. }
        split; [ | intros T]; nia.
Qed.

Lemma round_quotient (n d : Z) :
  0 < d ->
  2 * Z.abs (Sage.round (Sage.quotient n d) * d - n) <= d /\
  (2 * Z.abs (Sage.round (Sage.quotient n d) * d - n) = d ->
   Z.abs n < Z.abs (Sage.round (Sage.quotient n d)) * d).
Proof.
  intros Hd.
  pose proof (quotient_cross n d ltac:(lia)) as C.
  pose proof (round_reduced _ (quotient_coprime n d)) as [R1 R2].
  set (c := Sage.round (Sage.quotient n d)) in *.
  set (N := Qnum (Sage.quotient n d)) in *.
  set (D := Z.pos (Qden (Sage.quotient n d))) in *.
  assert (HD : 0 < D) by (subst D; lia).
  assert (E1 : Z.abs (c * D - N) * d = D * Z.abs (c * d - n)).
  { assert (E : Z.abs ((c * D - N) * d) = Z.abs (D * (c * d - n)))
      by (f_equal; nia).
    rewrite !Z.abs_mul, (Z.abs_eq d), (Z.abs_eq D) in E; lia. }
  assert (E2 : Z.abs N * d = Z.abs n * D).
  { assert (E : Z.abs (N * d) = Z.abs (n * D)) by (f_equal; lia).
    rewrite !Z.abs_mul, (Z.abs_eq d), (Z.abs_eq D) in E; lia. }
  split.
  - nia.
  - intros T. assert (T' : 2 * Z.abs (c * D - N) = D) by nia.
    specialize (R2 T'). nia.
Qed.

End SagePrimitives.

(** ** Bit lengths and the bound *)

Section BitLengths.

Lemma nbits_pos (m : Z) : 0 < m -> Sage.nbits m = Z.log2 m + 1.
Proof.
  intros H. unfold Sage.nbits.
  destruct (Z.eqb_spec m 0); [lia | ]. rewrite Z.abs_eq by lia. reflexivity.
Qed.

Lemma nbits_nonneg (m : Z) : 0 <= Sage.nbits m.
Proof.
  unfold Sage.nbits. destruct (m =? 0); [lia | ].
  pose proof (Z.log2_nonneg (Z.abs m)). lia.
Qed.

Lemma limit_floor (B : basis) :
  Reducer.limit B = (Sage.nbits (max_norm_squared B) + 1) / 2.
Proof.
  unfold Reducer.limit. rewrite int_quotient by lia.
  apply Z.quot_div_nonneg; [ | lia].
  pose proof (nbits_nonneg (max_norm_squared B)). lia.
Qed.

Lemma nbits_opp (n : Z) : Sage.nbits (- n) = Sage.nbits n.
Proof.
  unfold Sage.nbits. rewrite Z.abs_opp.
  destruct (Z.eqb_spec n 0), (Z.eqb_spec (- n) 0); lia.
Qed.

End BitLengths.

(** ** One division step *)

Section Rotation.

Implicit Types s : state.

Lemma div_zero (n : Z) : Sage.div n 0 = Raise ZeroDivisionError.
Proof. reflexivity. Qed.

Lemma div_nonzero (n d : Z) : d <> 0 -> Sage.div n d = Ok (Sage.quotient n d).
Proof.
  intros Hd. unfold Sage.div.
  destruct (Z.eqb_spec d 0); [contradiction | reflexivity].
Qed.

Lemma rotate_zero s : u s = 0 -> rotate s = Raise ZeroDivisionError.
Proof. intros E. unfold rotate. rewrite E, div_zero. reflexivity. Qed.

Lemma rotate_nonzero s : u s <> 0 -> rotate s = Ok (Spec.rotated s).
Proof.
  intros Hu. unfold rotate, Spec.rotated.
  rewrite (div_nonzero _ _ Hu). cbn [bind].
  rewrite (int_quotient _ _ Hu). reflexivity.
Qed.

Lemma rotate_ok s s' : rotate s = Ok s' -> u s <> 0 /\ s' = Spec.rotated s.
Proof.
  intros H. destruct (Z.eq_dec (u s) 0) as [E | N].
  - rewrite (rotate_zero _ E) in H. discriminate.
  - rewrite (rotate_nonzero _ N) in H. split; congruence.
Qed.

Lemma rotate_raise s e : rotate s = Raise e -> e = ZeroDivisionError /\ u s = 0.
Proof.
  intros H. destruct (Z.eq_dec (u s) 0) as [E | N].
  - rewrite (rotate_zero _ E) in H. split; congruence.
  - rewrite (rotate_nonzero _ N) in H. discriminate.
Qed.

(** The branch taken at the stop is the tie-break of the specification
    on the three candidates, the third one coming from one more
    division step. *)
Lemma select_choose (Fr Lambda : Z) s :
  select Fr Lambda s =
  (s2 <- rotate s ;;
   Ok (Spec.choose (Spec.first_candidate s)
                   (Spec.pre_stop_candidate Fr Lambda s)
                   (Spec.next_candidate s2))).
Proof.
  unfold select. destruct (Z.eq_dec (u s) 0) as [E | N].
  - rewrite (rotate_zero _ E), E, div_zero. reflexivity.
  - rewrite (rotate_nonzero _ N), (div_nonzero _ _ N). cbn [bind].
    rewrite (int_quotient _ _ N).
    unfold Spec.choose, Spec.norm2, Spec.first_candidate,
      Spec.pre_stop_candidate, Spec.next_candidate, Spec.rotated.
    cbn [fst snd u y1].
    assert (Sq : forall a : Z, (- a) ^ 2 = a ^ 2) by (intros; ring).
    rewrite !Sq.
    match goal with |- context [if ?c then _ else _] => destruct c end;
      reflexivity.
Qed.

Lemma select_raise (Fr Lambda : Z) s e :
  select Fr Lambda s = Raise e -> e = ZeroDivisionError /\ u s = 0.
Proof.
  rewrite select_choose. destruct (rotate s) eqn:R; cbn [bind].
  - discriminate.
  - intros H. injection H as <-. eapply rotate_raise; eassumption.
Qed.

(** A step keeps the Bezout relation. *)
Lemma rotated_bezout (Fr Lambda : Z) s :
  Spec.bezout Fr Lambda s -> Spec.bezout Fr Lambda (Spec.rotated s).
Proof.
  unfold Spec.bezout, Spec.rotated. cbn [u v x1 y1 x2 y2].
  intros [Hu Hv]. split; [ | exact Hu].
  generalize (Z.quot (v s) (u s)); intros q.
  rewrite Hv, Hu. ring.
Qed.

Lemma init_bezout (Fr Lambda : Z) : Spec.bezout Fr Lambda (init Fr Lambda).
Proof. unfold Spec.bezout, init. cbn [u v x1 y1 x2 y2]. split; ring. Qed.

Lemma at_head_bezout (Fr Lambda : Z) s :
  at_head Fr Lambda s -> Spec.bezout Fr Lambda s.
Proof.
  induction 1 as [ | s s' _ IH R _].
  - apply init_bezout.
  - apply rotate_ok in R as [_ ->]. apply rotated_bezout, IH.
Qed.

End Rotation.

(** ** The loop *)

Section Loop.

Variables Fr Lambda : Z.

Implicit Types s : state.

(** More iterations do not change an outcome already reached. *)
Lemma loop_mono (n m : nat) s (r : result basis) :
  (n <= m)%nat ->
  loop n Fr Lambda s = Some r -> loop m Fr Lambda s = Some r.
Proof.
  revert m s. induction n as [ | n IH]; intros m s Le H.
  - discriminate.
  - destruct m as [ | m]; [lia | ]. cbn [loop] in *.
    destruct (rotate s) as [s' | e]; [ | exact H].
    destruct (u s' <? bound Fr); [exact H | ].
    apply IH; [lia | exact H].
Qed.

Lemma loop_deterministic (n m : nat) s (r r' : result basis) :
  loop n Fr Lambda s = Some r -> loop m Fr Lambda s = Some r' -> r = r'.
Proof.
  intros H H'. destruct (Nat.le_ge_cases n m) as [Le | Le].
  - rewrite (loop_mono n m s r Le H) in H'. congruence.
  - rewrite (loop_mono m n s r' Le H') in H. congruence.
Qed.

(** Where [isqrt] returns, lines 166-200 are the loop. *)
Lemma basis_reduction_nonneg (n : nat) :
  0 <= Fr ->
  basis_reduction n Fr Lambda = loop n Fr Lambda (init Fr Lambda).
Proof.
  intros H. unfold basis_reduction, Sage.isqrt.
  destruct (Z.ltb_spec Fr 0); [lia | reflexivity].
Qed.

Lemma basis_reduction_negative (n : nat) :
  Fr < 0 -> basis_reduction n Fr Lambda = Some (Raise ValueError).
Proof.
  intros H. unfold basis_reduction, Sage.isqrt.
  destruct (Z.ltb_spec Fr 0); [reflexivity | lia].
Qed.

(** The only exception the loop can raise is the division by zero. *)
Lemma loop_raise (n : nat) s (e : exn) :
  loop n Fr Lambda s = Some (Raise e) -> e = ZeroDivisionError.
Proof.
  revert s. induction n as [ | n IH]; intros s H; [discriminate | ].
  cbn [loop] in H. destruct (rotate s) as [s' | e'] eqn:R.
  - destruct (u s' <? bound Fr).
    + injection H as H. eapply select_raise; eassumption.
    + eapply IH; eassumption.
  - injection H as <-. eapply rotate_raise; eassumption.
Qed.

Lemma rotations_front (n : nat) s :
  rotations (S n) s = (s1 <- rotate s ;; rotations n s1).
Proof.
  induction n as [ | n IH].
  - cbn [rotations bind]. destruct (rotate s); reflexivity.
  - change (rotations (S (S n)) s)
      with (s' <- rotations (S n) s ;; rotate s').
    rewrite IH. destruct (rotate s); reflexivity.
Qed.

(** A basis comes out of the loop exactly at the first division step
    whose remainder is below the bound. *)
Lemma loop_first_stop (fuel : nat) s (B : basis) :
  loop fuel Fr Lambda s = Some (Ok B) ->
  exists (n : nat) (s' : state),
    (1 <= n <= fuel)%nat /\
    rotations n s = Ok s' /\
    u s' < bound Fr /\
    (forall (m : nat) (sm : state),
        (1 <= m < n)%nat -> rotations m s = Ok sm -> bound Fr <= u sm) /\
    select Fr Lambda s' = Ok B.
Proof.
  revert s. induction fuel as [ | fuel IH]; intros s H; [discriminate | ].
  cbn [loop] in H. destruct (rotate s) as [s1 | e] eqn:R; [ | discriminate].
  destruct (Z.ltb_spec (u s1) (bound Fr)) as [Lt | Ge].
  - exists 1%nat, s1.
    split; [lia | ]. split; [cbn [rotations bind]; exact R | ].
    split; [exact Lt | ]. split; [intros m sm Hm; lia | congruence].
  - destruct (IH s1 H) as (n & s' & Hn & Hr & Hu & Hfirst & Hs).
    exists (S n), s'.
    split; [lia | ]. split; [rewrite rotations_front, R; exact Hr | ].
    split; [exact Hu | ]. split; [ | exact Hs].
    intros m sm Hm Hrm. destruct m as [ | m]; [lia | ].
    rewrite rotations_front, R in Hrm. cbn [bind] in Hrm.
    destruct m as [ | m].
    + cbn [rotations] in Hrm. injection Hrm as <-. exact Ge.
    + apply (Hfirst (S m) sm); [lia | exact Hrm].
Qed.

Lemma first_stop_loop (n : nat) s s' :
  (1 <= n)%nat ->
  rotations n s = Ok s' ->
  u s' < bound Fr ->
  (forall (m : nat) (sm : state),
      (1 <= m < n)%nat -> rotations m s = Ok sm -> bound Fr <= u sm) ->
  loop n Fr Lambda s = Some (select Fr Lambda s').
Proof.
  revert s. induction n as [ | n IH]; intros s Hn Hr Hu Hfirst; [lia | ].
  rewrite rotations_front in Hr. cbn [loop].
  destruct (rotate s) as [s1 | e] eqn:R; [ | discriminate].
  cbn [bind] in Hr. destruct n as [ | n].
  - cbn [rotations] in Hr. injection Hr as ->.
    destruct (Z.ltb_spec (u s') (bound Fr)); [reflexivity | lia].
  - assert (Ge : bound Fr <= u s1).
    { apply (Hfirst 1%nat s1); [lia | ]. cbn [rotations bind]. exact R. }
    destruct (Z.ltb_spec (u s1) (bound Fr)); [lia | ].
    apply IH; [lia | exact Hr | exact Hu | ].
    intros m sm Hm Hrm. apply (Hfirst (S m) sm); [lia | ].
    rewrite rotations_front, R. exact Hrm.
Qed.

(** The state the loop is left from: it was reached from a state at the
    head of the loop by one division step. *)
Lemma loop_exit (fuel : nat) s (B : basis) :
  at_head Fr Lambda s ->
  loop fuel Fr Lambda s = Some (Ok B) ->
  exists s0 s' : state,
    at_head Fr Lambda s0 /\ rotate s0 = Ok s' /\
    u s' < bound Fr /\ select Fr Lambda s' = Ok B.
Proof.
  revert s. induction fuel as [ | fuel IH]; intros s Hh H; [discriminate | ].
  cbn [loop] in H. destruct (rotate s) as [s1 | e] eqn:R; [ | discriminate].
  destruct (u s1 <? bound Fr) eqn:T.
  - exists s, s1.
    split; [exact Hh | ]. split; [exact R | ].
    split; [apply Z.ltb_lt, T | congruence].
  - apply (IH s1); [ | exact H]. eapply head_next; eassumption.
Qed.

End Loop.

(** ** The loop on inputs in range *)

Section InRange.

Variables Fr Lambda : Z.

Implicit Types s : state.

Lemma rotated_nonneg s :
  0 <= v s -> 0 < u s ->
  u (Spec.rotated s) = v s mod u s /\ Z.quot (v s) (u s) = v s / u s.
Proof.
  intros Hv Hu. unfold Spec.rotated. cbn [u].
  rewrite (Z.quot_div_nonneg _ _ Hv Hu).
  split; [ | reflexivity].
  pose proof (Z.div_mod (v s) (u s) ltac:(lia)). lia.
Qed.

Lemma rotated_init :
  0 <= Lambda < Fr ->
  Spec.rotated (init Fr Lambda) = mkState Lambda Fr 0 1 1 0.
Proof.
  intros H. unfold Spec.rotated, init. cbn [u v x1 y1 x2 y2].
  rewrite (Z.quot_small Lambda Fr H). f_equal; ring.
Qed.

Lemma alternating_rotated s :
  Spec.alternating s -> u s <> 0 -> Spec.alternating (Spec.rotated s).
Proof.
  intros (Huv & Hy & Hyy) Hu.
  destruct (rotated_nonneg s ltac:(lia) ltac:(lia)) as [Er Eq].
  unfold Spec.alternating. rewrite Er.
  unfold Spec.rotated. cbn [v y1 y2]. rewrite Eq.
  pose proof (Z.mod_pos_bound (v s) (u s) ltac:(lia)) as Bm.
  assert (Hq : 1 <= v s / u s).
  { apply Z.div_le_lower_bound; lia. }
  split; [lia | ]. split; nia.
Qed.

Lemma at_head_shape s :
  0 <= Lambda < Fr ->
  at_head Fr Lambda s -> s = init Fr Lambda \/ Spec.alternating s.
Proof.
  intros HL. induction 1 as [ | s s' _ IH R _]; [now left | right].
  apply rotate_ok in R as [Hu ->]. destruct IH as [-> | J].
  - rewrite (rotated_init HL). unfold Spec.alternating. cbn. lia.
  - apply alternating_rotated; assumption.
Qed.

Lemma at_head_step_shape s s' :
  0 <= Lambda < Fr ->
  at_head Fr Lambda s -> rotate s = Ok s' -> Spec.alternating s'.
Proof.
  intros HL Hh R. apply rotate_ok in R as [Hu ->].
  destruct (at_head_shape s HL Hh) as [-> | J].
  - rewrite (rotated_init HL). unfold Spec.alternating. cbn. lia.
  - apply alternating_rotated; assumption.
Qed.

(** The remainder goes down at every step. *)
Lemma at_head_step_decreases s s' :
  0 <= Lambda < Fr ->
  at_head Fr Lambda s -> rotate s = Ok s' -> 0 <= u s' < u s.
Proof.
  intros HL Hh R. pose proof (at_head_step_shape s s' HL Hh R) as (J & _).
  apply rotate_ok in R as [_ ->]. unfold Spec.rotated in *. cbn [u v] in *.
  lia.
Qed.

Lemma lattice_multiple (a b x : Z) :
  a + b * Lambda = x * Fr -> Spec.in_lattice Fr Lambda a b.
Proof. intros E. unfold Spec.in_lattice. rewrite E. apply Z_mod_mult. Qed.

End InRange.

(** ** What the loop returns *)

Section Outcome.

Variables Fr Lambda : Z.

Implicit Types s : state.

Lemma select_lattice s (B : basis) :
  Spec.bezout Fr Lambda s ->
  select Fr Lambda s = Ok B ->
  Spec.in_lattice Fr Lambda (a1 B) (b1 B) /\
  Spec.in_lattice Fr Lambda (a2 B) (b2 B).
Proof.
  intros Bz H. rewrite select_choose in H.
  destruct (rotate s) as [s2 | e] eqn:R; [ | discriminate].
  cbn [bind] in H. injection H as <-.
  apply rotate_ok in R as [_ ->].
  pose proof (rotated_bezout Fr Lambda s Bz) as [Bu2 _].
  destruct Bz as [Bu Bv].
  unfold Spec.choose, Spec.first_candidate, Spec.pre_stop_candidate,
    Spec.next_candidate.
  cbn [fst snd].
  match goal with |- context [if ?c then _ else _] => destruct c end;
    cbn [a1 b1 a2 b2]; split.
  - apply (lattice_multiple Fr Lambda _ _ (x2 s)). ring.
  - apply (lattice_multiple Fr Lambda _ _ (x1 s)). rewrite Bu. ring.
  - apply (lattice_multiple Fr Lambda _ _ (x1 s)). rewrite Bu. ring.
  - apply (lattice_multiple Fr Lambda _ _ (x1 (Spec.rotated s))).
    rewrite Bu2. ring.
Qed.

Lemma select_nonzero s (B : basis) :
  Spec.bezout Fr Lambda s ->
  Spec.alternating s ->
  select Fr Lambda s = Ok B ->
  Spec.nonzero (a1 B) (b1 B) /\ Spec.nonzero (a2 B) (b2 B).
Proof.
  intros [Bu Bv] J H. rewrite select_choose in H.
  destruct (rotate s) as [s2 | e] eqn:R; [ | discriminate].
  cbn [bind] in H. injection H as <-.
  apply rotate_ok in R as [Hu ->].
  pose proof (alternating_rotated s J Hu) as (_ & Hy2 & _).
  destruct J as (Huv & _ & _).
  unfold Spec.choose, Spec.first_candidate, Spec.pre_stop_candidate,
    Spec.next_candidate, Spec.nonzero.
  cbn [fst snd].
  match goal with |- context [if ?c then _ else _] => destruct c end;
    cbn [a1 b1 a2 b2]; split.
  - left. rewrite <- Bv. lia.
  - left. exact Hu.
  - left. exact Hu.
  - right. lia.
Qed.

(** Every basis the loop returns lies in the sublattice. *)
Lemma loop_lattice (fuel : nat) (B : basis) :
  loop fuel Fr Lambda (init Fr Lambda) = Some (Ok B) ->
  Spec.in_lattice Fr Lambda (a1 B) (b1 B) /\
  Spec.in_lattice Fr Lambda (a2 B) (b2 B).
Proof.
  intros H.
  destruct (loop_exit Fr Lambda fuel _ B (head_init Fr Lambda) H)
    as (s0 & s' & Hh & R & _ & Hs).
  apply at_head_bezout in Hh. apply rotate_ok in R as [_ ->].
  eapply select_lattice; [ | exact Hs]. apply rotated_bezout, Hh.
Qed.

Lemma loop_nonzero (fuel : nat) (B : basis) :
  0 <= Lambda < Fr ->
  loop fuel Fr Lambda (init Fr Lambda) = Some (Ok B) ->
  Spec.nonzero (a1 B) (b1 B) /\ Spec.nonzero (a2 B) (b2 B).
Proof.
  intros HL H.
  destruct (loop_exit Fr Lambda fuel _ B (head_init Fr Lambda) H)
    as (s0 & s' & Hh & R & _ & Hs).
  pose proof (at_head_step_shape Fr Lambda s0 s' HL Hh R) as J.
  apply at_head_bezout in Hh. apply rotate_ok in R as [_ ->].
  eapply select_nonzero; [ | exact J | exact Hs].
  apply rotated_bezout, Hh.
Qed.

(** Coprime inputs never meet the division by zero. *)
Lemma coprime_rotated s :
  Spec.coprime_state s ->
  0 <= u (Spec.rotated s) < u s /\
  0 < v (Spec.rotated s) /\
  Z.gcd (u (Spec.rotated s)) (v (Spec.rotated s)) = 1 /\
  u (Spec.rotated s) <> 0.
Proof.
  intros (Hu & Hv & Hg).
  destruct (rotated_nonneg s Hv ltac:(lia)) as [Er _]. rewrite Er.
  unfold Spec.rotated. cbn [v].
  pose proof (Z.mod_pos_bound (v s) (u s) ltac:(lia)) as Bm.
  assert (G : Z.gcd (v s mod u s) (u s) = 1).
  { rewrite Z.gcd_mod by lia. exact Hg. }
  repeat split; try lia.
  intros E0. rewrite E0 in G. cbn in G. rewrite Z.abs_eq in G; lia.
Qed.

Lemma loop_total_from (n : nat) s :
  2 <= bound Fr ->
  Spec.coprime_state s ->
  u s <= Z.of_nat n ->
  exists B : basis, loop n Fr Lambda s = Some (Ok B).
Proof.
  intros Hb. revert s. induction n as [ | n IH]; intros s C Le.
  - destruct C as (Hu & _). lia.
  - pose proof (coprime_rotated s C) as (Hr & Hv' & Hg' & Hnz).
    assert (Hu : u s <> 0) by (destruct C; lia).
    cbn [loop]. rewrite (rotate_nonzero s Hu).
    destruct (Z.ltb_spec (u (Spec.rotated s)) (bound Fr)) as [Lt | Ge].
    + rewrite select_choose, (rotate_nonzero _ Hnz). cbn [bind].
      eexists. reflexivity.
    + apply IH; [ | lia]. unfold Spec.coprime_state. lia.
Qed.

Lemma bound_ge_2 : 4 <= Fr -> 2 <= bound Fr.
Proof.
  intros H. unfold bound.
  change 2 with (Z.sqrt 4). apply Z.sqrt_le_mono, H.
Qed.

Lemma loop_total :
  4 <= Fr -> 0 <= Lambda -> Z.gcd Fr Lambda = 1 ->
  exists (n : nat) (B : basis),
    loop n Fr Lambda (init Fr Lambda) = Some (Ok B).
Proof.
  intros HF HL Hg. exists (Z.to_nat Fr).
  apply loop_total_from.
  - apply bound_ge_2, HF.
  - unfold Spec.coprime_state, init. cbn [u v]. lia.
  - cbn [init u]. lia.
Qed.

(** The remainders shrink geometrically: the product [u * v] is more
    than halved by every step, which bounds the number of steps by the
    bit length of the product. *)
Lemma loop_halts_from (n : nat) s :
  0 <= u s < v s ->
  u s * v s < 2 ^ Z.of_nat n ->
  exists r : result basis, loop (S n) Fr Lambda s = Some r.
Proof.
  revert s. induction n as [ | n IH]; intros s Huv Hp.
  - assert (E : u s = 0) by (cbn in Hp; nia).
    cbn [loop]. rewrite (rotate_zero s E). eexists. reflexivity.
  - destruct (Z.eq_dec (u s) 0) as [E | N].
    + cbn [loop]. rewrite (rotate_zero s E). eexists. reflexivity.
    + remember (S n) as k eqn:Ek. cbn [loop]. rewrite (rotate_nonzero s N).
      destruct (u (Spec.rotated s) <? bound Fr); [eexists; reflexivity | ].
      subst k. apply IH.
      * destruct (rotated_nonneg s ltac:(lia) ltac:(lia)) as [Er _].
        rewrite Er. unfold Spec.rotated. cbn [v].
        pose proof (Z.mod_pos_bound (v s) (u s) ltac:(lia)). lia.
      * destruct (rotated_nonneg s ltac:(lia) ltac:(lia)) as [Er _].
        rewrite Er. unfold Spec.rotated. cbn [v].
        pose proof (Z.mod_pos_bound (v s) (u s) ltac:(lia)) as Bm.
        pose proof (Z.div_mod (v s) (u s) ltac:(lia)) as DM.
        assert (Hq : 1 <= v s / u s) by (apply Z.div_le_lower_bound; lia).
        rewrite Nat2Z.inj_succ, Z.pow_succ_r in Hp by lia.
        nia.
Qed.

End Outcome.

(** ** The decomposition *)

Section Decomposition.

Variable G : globals.

Lemma coefficients_ok (k : Z) :
  Fr G <> 0 ->
  coefficients G k =
  Ok (Sage.round (Sage.quotient (b2 (vecs G) * k) (Fr G)),
      Sage.round (Sage.quotient (- b1 (vecs G) * k) (Fr G))).
Proof.
  intros H. unfold coefficients. rewrite !(div_nonzero _ _ H). reflexivity.
Qed.

Lemma coefficients_zero (k : Z) :
  Fr G = 0 -> coefficients G k = Raise ZeroDivisionError.
Proof. intros H. unfold coefficients. rewrite H, div_zero. reflexivity. Qed.

(** The function in terms of its stages. *)
Lemma decomposition_stages (k : Z) (c : Z * Z) :
  coefficients G k = Ok c ->
  get_endomorphism_scalar_decomposition G k =
  (let k1 := replace G (fst (raw_pair G c k)) in
   let k2 := replace G (snd (raw_pair G c k)) in
   if Sage.nbits k1 <=? limit G
   then if Sage.nbits k2 <=? limit G then Ok (k1, k2)
        else Raise AssertionError
   else Raise AssertionError).
Proof.
  intros H. unfold get_endomorphism_scalar_decomposition.
  rewrite H. cbn [bind]. destruct (raw_pair G c k) as [r1 r2]. cbn [fst snd].
  unfold assert.
  destruct (Sage.nbits (replace G r1) <=? limit G); cbn [bind];
    [ | reflexivity].
  destruct (Sage.nbits (replace G r2) <=? limit G); reflexivity.
Qed.

(** Components that fit are returned as computed, whatever their
    sign. *)
Lemma replace_fits (k : Z) : Sage.nbits k <= limit G -> replace G k = k.
Proof.
  intros H. unfold replace.
  destruct (Z.gtb_spec (Sage.nbits k) (limit G)); [lia | reflexivity].
Qed.

Lemma decomposition_fits (k : Z) (c : Z * Z) :
  coefficients G k = Ok c ->
  Sage.nbits (fst (raw_pair G c k)) <= limit G ->
  Sage.nbits (snd (raw_pair G c k)) <= limit G ->
  get_endomorphism_scalar_decomposition G k = Ok (raw_pair G c k).
Proof.
  intros H F1 F2. rewrite (decomposition_stages k c H). cbv zeta.
  rewrite (replace_fits _ F1), (replace_fits _ F2).
  destruct (Z.leb_spec (Sage.nbits (fst (raw_pair G c k))) (limit G));
    [ | lia].
  destruct (Z.leb_spec (Sage.nbits (snd (raw_pair G c k))) (limit G));
    [ | lia].
  destruct (raw_pair G c k); reflexivity.
Qed.

Lemma replace_signed (k : Z) :
  Spec.sign_kept G k * replace G k = k - (if Sage.nbits k >? limit G then Fr G else 0).
Proof.
  unfold Spec.sign_kept, replace.
  destruct (Sage.nbits k >? limit G); ring.
Qed.

(** Whatever pair is returned reconstructs [k] once each component is
    read with the sign the replacement left on it. *)
Lemma decomposition_signed (Lambda k k1 k2 : Z) :
  Spec.in_lattice (Fr G) Lambda (a1 (vecs G)) (b1 (vecs G)) ->
  Spec.in_lattice (Fr G) Lambda (a2 (vecs G)) (b2 (vecs G)) ->
  get_endomorphism_scalar_decomposition G k = Ok (k1, k2) ->
  exists c : Z * Z,
    coefficients G k = Ok c /\
    k1 = replace G (fst (raw_pair G c k)) /\
    k2 = replace G (snd (raw_pair G c k)) /\
    (Spec.sign_kept G (fst (raw_pair G c k)) * k1 +
     Spec.sign_kept G (snd (raw_pair G c k)) * k2 * Lambda) mod Fr G
    = k mod Fr G.
Proof.
  intros L1 L2 H.
  destruct (Z.eq_dec (Fr G) 0) as [E0 | N0].
  { unfold get_endomorphism_scalar_decomposition in H.
    rewrite (coefficients_zero k E0) in H. discriminate. }
  pose proof (coefficients_ok k N0) as Hc.
  destruct (coefficients G k) as [c | ] eqn:Ec; [clear Hc | discriminate].
  exists c. split; [reflexivity | ].
  rewrite (decomposition_stages k c Ec) in H. cbv zeta in H.
  destruct (Sage.nbits (replace G (fst (raw_pair G c k))) <=? limit G);
    [ | discriminate].
  destruct (Sage.nbits (replace G (snd (raw_pair G c k))) <=? limit G);
    [ | discriminate].
  injection H as <- <-. split; [reflexivity | ]. split; [reflexivity | ].
  apply Z.mod_divide in L1; [ | exact N0]. destruct L1 as [t1 E1].
  apply Z.mod_divide in L2; [ | exact N0]. destruct L2 as [t2 E2].
  pose proof (replace_signed (fst (raw_pair G c k))) as S1.
  pose proof (replace_signed (snd (raw_pair G c k))) as S2.
  set (f1 := if _ >? _ then Fr G else 0) in S1.
  set (f2 := if _ >? _ then Fr G else 0) in S2.
  assert (Hf1 : exists m, f1 = m * Fr G).
  { subst f1.
    match goal with |- context [if ?b then _ else _] => destruct b end;
      [exists 1 | exists 0]; ring. }
  assert (Hf2 : exists m, f2 = m * Fr G).
  { subst f2.
    match goal with |- context [if ?b then _ else _] => destruct b end;
      [exists 1 | exists 0]; ring. }
  destruct Hf1 as [m1 Hm1]. destruct Hf2 as [m2 Hm2].
  rewrite Hm1 in S1. rewrite Hm2 in S2. clear Hm1 Hm2 f1 f2.
  rewrite S1, S2.
  destruct c as [c1 c2]. unfold raw_pair. cbn [fst snd].
  assert (A1 : a1 (vecs G) = t1 * Fr G - b1 (vecs G) * Lambda) by lia.
  assert (A2 : a2 (vecs G) = t2 * Fr G - b2 (vecs G) * Lambda) by lia.
  rewrite A1, A2.
  match goal with
  | |- ?lhs mod _ = _ =>
      replace lhs
        with (k + (- c1 * t1 - c2 * t2 - m1 - m2 * Lambda) * Fr G) by ring
  end.
  apply Z_mod_plus_full.
Qed.

End Decomposition.

(** ** The orientation of the basis *)

Section Orientation.

Lemma rotated_unimodular (s : state) :
  Spec.unimodular s -> Spec.unimodular (Spec.rotated s).
Proof.
  unfold Spec.unimodular, Spec.rotated. cbn [x1 y1 x2 y2].
  generalize (Z.quot (v s) (u s)). intros q H.
  replace ((x2 s - q * x1 s) * y1 s - x1 s * (y2 s - q * y1 s))
    with (- (x1 s * y2 s - x2 s * y1 s)) by ring.
  lia.
Qed.

Lemma at_head_unimodular (Fr Lambda : Z) (s : state) :
  at_head Fr Lambda s -> Spec.unimodular s.
Proof.
  induction 1 as [ | s s' _ IH R _].
  - left. reflexivity.
  - apply rotate_ok in R as [_ ->]. apply rotated_unimodular, IH.
Qed.

Lemma select_det (Fr Lambda : Z) (s : state) (B : basis) :
  Spec.bezout Fr Lambda s -> Spec.unimodular s ->
  select Fr Lambda s = Ok B ->
  Spec.det B = Fr \/ Spec.det B = - Fr.
Proof.
  intros Bz U H. rewrite select_choose in H.
  destruct (rotate s) as [s2 | e] eqn:R; [ | discriminate].
  cbn [bind] in H. injection H as <-.
  apply rotate_ok in R as [_ ->].
  pose proof (rotated_bezout Fr Lambda s Bz) as [Bu2 _].
  pose proof (rotated_unimodular s U) as U2.
  destruct Bz as [Bu _].
  unfold Spec.choose, Spec.first_candidate, Spec.pre_stop_candidate,
    Spec.next_candidate, Spec.det.
  cbn [fst snd].
  match goal with |- context [if ?c then _ else _] => destruct c end;
    cbn [a1 b1 a2 b2].
  - rewrite Bu.
    replace ((x2 s * Fr + y2 s * Lambda) * - y1 s -
             (x1 s * Fr + y1 s * Lambda) * - y2 s)
      with (Fr * (x1 s * y2 s - x2 s * y1 s)) by ring.
    destruct U as [-> | ->]; [left | right]; ring.
  - rewrite Bu2, Bu.
    unfold Spec.unimodular in U2.
    unfold Spec.rotated in *. cbn [x1 y1 x2 y2] in *.
    revert U2. generalize (Z.quot (v s) (u s)). intros q U2.
    match goal with
    | |- ?d = _ \/ _ =>
        replace d
          with (Fr * ((x2 s - q * x1 s) * y1 s - x1 s * (y2 s - q * y1 s)))
          by ring
    end.
    destruct U2 as [-> | ->]; [left | right]; ring.
Qed.

(** The vectors returned span the whole sublattice, with determinant
    [Fr] or [-Fr]. *)
Lemma loop_det (Fr Lambda : Z) (fuel : nat) (B : basis) :
  loop fuel Fr Lambda (init Fr Lambda) = Some (Ok B) ->
  Spec.det B = Fr \/ Spec.det B = - Fr.
Proof.
  intros H.
  destruct (loop_exit Fr Lambda fuel _ B (head_init Fr Lambda) H)
    as (s0 & s' & Hh & R & _ & Hs).
  pose proof (at_head_bezout _ _ _ Hh) as Bz.
  pose proof (at_head_unimodular _ _ _ Hh) as U.
  apply rotate_ok in R as [_ ->].
  eapply select_det; [ | | exact Hs].
  - apply rotated_bezout, Bz.
  - apply rotated_unimodular, U.
Qed.

End Orientation.

(** ** The bound when the determinant is [Fr] *)

Section NormBound.

(** The argument of the lemma the script cites: with the determinant
    equal to [Fr] and both coefficients within one half of the exact
    quotients, the vector [(k1, k2)] is no longer than the longer of the
    two basis vectors. *)
Lemma short_vector (Fr a1 b1 a2 b2 k c1 c2 M : Z) :
  0 < Fr ->
  a1 * b2 - a2 * b1 = Fr ->
  2 * Z.abs (c1 * Fr - b2 * k) <= Fr ->
  2 * Z.abs (c2 * Fr - - b1 * k) <= Fr ->
  a1 * a1 + b1 * b1 <= M ->
  a2 * a2 + b2 * b2 <= M ->
  (k - c1 * a1 - c2 * a2) * (k - c1 * a1 - c2 * a2) +
  (- c1 * b1 - c2 * b2) * (- c1 * b1 - c2 * b2) <= M.
Proof.
  intros HF D R1 R2 N1 N2.
  set (e1 := c1 * Fr - b2 * k) in *.
  set (e2 := c2 * Fr - - b1 * k) in *.
  set (k1 := k - c1 * a1 - c2 * a2).
  set (k2 := - c1 * b1 - c2 * b2).
  set (P := a1 * a2 + b1 * b2).
  assert (K1 : Fr * k1 = - (e1 * a1 + e2 * a2)).
  { subst k1 e1 e2. rewrite <- D. ring. }
  assert (K2 : Fr * k2 = - (e1 * b1 + e2 * b2)).
  { subst k2 e1 e2. ring. }
  assert (Sq : Fr * Fr * (k1 * k1 + k2 * k2) =
               e1 * e1 * (a1 * a1 + b1 * b1) + 2 * (e1 * e2 * P) +
               e2 * e2 * (a2 * a2 + b2 * b2)).
  { replace (Fr * Fr * (k1 * k1 + k2 * k2))
      with ((Fr * k1) * (Fr * k1) + (Fr * k2) * (Fr * k2)) by ring.
    rewrite K1, K2. subst P. ring. }
  clearbody e1 e2 k1 k2.
  assert (M0 : 0 <= M) by nia.
  assert (E1 : 4 * (e1 * e1) <= Fr * Fr).
  { rewrite <- (Z.abs_square e1). nia. }
  assert (E2 : 4 * (e2 * e2) <= Fr * Fr).
  { rewrite <- (Z.abs_square e2). nia. }
  assert (E12 : 4 * Z.abs (e1 * e2) <= Fr * Fr).
  { rewrite Z.abs_mul. pose proof (Z.abs_nonneg e1). pose proof (Z.abs_nonneg e2). nia. }
  assert (PM : Z.abs P <= M).
  { assert (CS : P * P <= M * M).
    { assert (P * P + (a1 * b2 - a2 * b1) * (a1 * b2 - a2 * b1)
              = (a1 * a1 + b1 * b1) * (a2 * a2 + b2 * b2))
        by (subst P; ring).
      assert ((a1 * a1 + b1 * b1) * (a2 * a2 + b2 * b2) <= M * M)
        by (apply Z.mul_le_mono_nonneg; nia).
      nia. }
    rewrite <- (Z.abs_square P) in CS.
    pose proof (Z.abs_nonneg P). nia. }
  assert (T : 4 * (e1 * e2 * P) <= Fr * Fr * M).
  { assert (e1 * e2 * P <= Z.abs (e1 * e2) * Z.abs P).
    { rewrite <- Z.abs_mul. lia. }
    assert (4 * (Z.abs (e1 * e2) * Z.abs P) <= Fr * Fr * M).
    { pose proof (Z.abs_nonneg (e1 * e2)). pose proof (Z.abs_nonneg P).
      replace (4 * (Z.abs (e1 * e2) * Z.abs P))
        with ((4 * Z.abs (e1 * e2)) * Z.abs P) by ring.
      apply Z.mul_le_mono_nonneg; lia. }
    lia. }
  assert (T1 : 4 * (e1 * e1 * (a1 * a1 + b1 * b1)) <= Fr * Fr * M).
  { replace (4 * (e1 * e1 * (a1 * a1 + b1 * b1)))
      with ((4 * (e1 * e1)) * (a1 * a1 + b1 * b1)) by ring.
    apply Z.mul_le_mono_nonneg; nia. }
  assert (T2 : 4 * (e2 * e2 * (a2 * a2 + b2 * b2)) <= Fr * Fr * M).
  { replace (4 * (e2 * e2 * (a2 * a2 + b2 * b2)))
      with ((4 * (e2 * e2)) * (a2 * a2 + b2 * b2)) by ring.
    apply Z.mul_le_mono_nonneg; nia. }
  assert (F : 4 * (Fr * Fr * (k1 * k1 + k2 * k2)) <= 4 * (Fr * Fr * M)) by lia.
  assert (0 < Fr * Fr) by nia.
  nia.
Qed.

(** A number whose square is at most [M] has about half the bits of
    [M]. *)
Lemma nbits_sqrt (k M : Z) :
  0 < M -> k * k <= M -> Sage.nbits k <= (Sage.nbits M + 1) / 2.
Proof.
  intros HM Hk. rewrite (nbits_pos M HM).
  pose proof (Z.log2_nonneg M) as Hl.
  set (t := (Z.log2 M + 1 + 1) / 2).
  assert (Ht : Z.log2 M + 1 <= 2 * t /\ 0 <= t).
  { subst t. Z.to_euclidean_division_equations. lia. }
  unfold Sage.nbits. destruct (Z.eqb_spec k 0) as [ | Hk0]; [lia | ].
  assert (Ha : 0 < Z.abs k) by lia.
  enough (Z.log2 (Z.abs k) < t) by lia.
  apply Z.log2_lt_pow2; [exact Ha | ].
  destruct (Z.log2_spec M HM) as [_ Hup].
  assert (Hp : 2 ^ Z.succ (Z.log2 M) <= 2 ^ (2 * t))
    by (apply Z.pow_le_mono_r; lia).
  replace (2 * t) with (t + t) in Hp by ring.
  rewrite Z.pow_add_r in Hp by lia.
  rewrite <- (Z.abs_square k) in Hk.
  pose proof (Z.pow_pos_nonneg 2 t ltac:(lia) ltac:(lia)).
  nia.
Qed.

End NormBound.

Section Oriented.

Variable G : globals.
Hypothesis Fr_pos : 0 < Fr G.
Hypothesis det_Fr : Spec.det (vecs G) = Fr G.
Hypothesis limit_derived : limit G = Reducer.limit (vecs G).

Lemma oriented_norm_pos : 0 < max_norm_squared (vecs G).
Proof.
  unfold max_norm_squared, Spec.det in *. rewrite !Z.pow_2_r.
  destruct (Z.eq_dec (a1 (vecs G)) 0) as [E | N].
  - destruct (Z.eq_dec (b1 (vecs G)) 0) as [E' | N'].
    + rewrite E, E' in det_Fr. lia.
    + nia.
  - nia.
Qed.

(** With the determinant equal to [Fr] the function is total: for every
    integer [k] the pair of lines 227-228 fits the bound, no replacement
    takes place and no assertion fires. *)
Lemma decomposition_oriented (k : Z) :
  exists c : Z * Z,
    coefficients G k = Ok c /\
    Sage.nbits (fst (raw_pair G c k)) <= limit G /\
    Sage.nbits (snd (raw_pair G c k)) <= limit G /\
    get_endomorphism_scalar_decomposition G k = Ok (raw_pair G c k).
Proof.
  pose proof (coefficients_ok G k ltac:(lia)) as Hc.
  pose proof (round_quotient (b2 (vecs G) * k) (Fr G) Fr_pos) as [R1 _].
  pose proof (round_quotient (- b1 (vecs G) * k) (Fr G) Fr_pos) as [R2 _].
  set (c1 := Sage.round (Sage.quotient (b2 (vecs G) * k) (Fr G))) in *.
  set (c2 := Sage.round (Sage.quotient (- b1 (vecs G) * k) (Fr G))) in *.
  clearbody c1 c2. exists (c1, c2).
  pose proof oriented_norm_pos as HM.
  assert (N1 : a1 (vecs G) * a1 (vecs G) + b1 (vecs G) * b1 (vecs G)
               <= max_norm_squared (vecs G)).
  { unfold max_norm_squared. rewrite !Z.pow_2_r. lia. }
  assert (N2 : a2 (vecs G) * a2 (vecs G) + b2 (vecs G) * b2 (vecs G)
               <= max_norm_squared (vecs G)).
  { unfold max_norm_squared. rewrite !Z.pow_2_r. lia. }
  pose proof (short_vector _ _ _ _ _ k c1 c2 _ Fr_pos det_Fr R1 R2 N1 N2)
    as Short.
  assert (F : Sage.nbits (fst (raw_pair G (c1, c2) k)) <= limit G /\
              Sage.nbits (snd (raw_pair G (c1, c2) k)) <= limit G).
  { rewrite limit_derived, limit_floor. unfold raw_pair. cbn [fst snd].
    set (k1 := k - c1 * a1 (vecs G) - c2 * a2 (vecs G)) in *.
    set (k2 := - c1 * b1 (vecs G) - c2 * b2 (vecs G)) in *.
    pose proof (Z.square_nonneg k1). pose proof (Z.square_nonneg k2).
    split; apply nbits_sqrt; try exact HM; lia. }
  destruct F as [F1 F2].
  split; [exact Hc | ]. split; [exact F1 | ]. split; [exact F2 | ].
  apply decomposition_fits; assumption.
Qed.

(** In that case the pair returned reconstructs [k] as it stands. *)
Lemma decomposition_oriented_exact (Lambda k : Z) :
  Spec.in_lattice (Fr G) Lambda (a1 (vecs G)) (b1 (vecs G)) ->
  Spec.in_lattice (Fr G) Lambda (a2 (vecs G)) (b2 (vecs G)) ->
  exists k1 k2 : Z,
    get_endomorphism_scalar_decomposition G k = Ok (k1, k2) /\
    Sage.nbits k1 <= limit G /\
    Sage.nbits k2 <= limit G /\
    (k1 + k2 * Lambda) mod Fr G = k mod Fr G.
Proof.
  intros L1 L2.
  destruct (decomposition_oriented k) as (c & Hc & F1 & F2 & Hd).
  destruct (raw_pair G c k) as [k1 k2] eqn:Er. cbn [fst snd] in F1, F2.
  exists k1, k2. split; [exact Hd | ]. split; [exact F1 | ].
  split; [exact F2 | ].
  destruct (decomposition_signed G Lambda k k1 k2 L1 L2 Hd)
    as (c' & Hc' & _ & _ & Hs).
  rewrite Hc in Hc'. injection Hc' as <-.
  rewrite Er in Hs. cbn [fst snd] in Hs. unfold Spec.sign_kept in Hs.
  destruct (Z.gtb_spec (Sage.nbits k1) (limit G)) as [G1 | _]; [lia | ].
  destruct (Z.gtb_spec (Sage.nbits k2) (limit G)) as [G2 | _]; [lia | ].
  rewrite !Z.mul_1_l in Hs. exact Hs.
Qed.

End Oriented.

(** * The claims *)

(** ** C7: the Bezout relation *)

(** C7.  At every iteration of the basis-reduction loop the tracked
    coefficient pairs express the two remainders: whenever the loop body
    is entered with a state [s] and its division step leads to [s'], both
    [s] and [s'] satisfy [u = x1*Fr + y1*lambda] and
    [v = x2*Fr + y2*lambda]; in particular the new remainder [r = u s'] is
    [x*Fr + y*lambda] for the new pair [(x, y) = (x1 s', y1 s')]. *)
Theorem bezout_invariant (Fr Lambda : Z) (s s' : state) :
  at_head Fr Lambda s ->
  rotate s = Ok s' ->
  Spec.bezout Fr Lambda s /\ Spec.bezout Fr Lambda s'.
Proof.
  intros Hh R. pose proof (at_head_bezout Fr Lambda s Hh) as Bz.
  split; [exact Bz | ].
  apply rotate_ok in R as [_ ->]. apply rotated_bezout, Bz.
Qed.

Lemma bezout_invariant_witness :
  Spec.bezout 13 3 (init 13 3) /\ Spec.bezout 13 3 (mkState 3 13 0 1 1 0).
Proof.
  apply (bezout_invariant 13 3 (init 13 3) (mkState 3 13 0 1 1 0)).
  - apply head_init.
  - vm_compute. reflexivity.
Defined.

(** ** C5: the selection of the two vectors *)

(** C5.  The loop returns a basis [B] within [fuel] iterations exactly
    when the recurrence stops at some step [n <= fuel] -- the first step
    whose remainder [r] is strictly below [bound = isqrt(Fr)] -- one
    further division step from the state [s] reached there succeeds with
    state [s2], and [B] is the tie-break applied to the first candidate
    [(r, -y1)], the pre-stop candidate [(r_l, -t_l)] with
    [r_l = x2*Fr + y2*lambda], [t_l = y2], and the next candidate
    [(r_l2, -y_l2)] of [s2]: when [r_l^2 + t_l^2 <= r_l2^2 + y_l2^2] the
    first vector is [(r_l, -t_l)] and the second the first candidate,
    otherwise the first vector is the first candidate and the second is
    [(r_l2, -y_l2)]. *)
Theorem basis_selection (Fr Lambda : Z) (fuel : nat) (B : basis) :
  loop fuel Fr Lambda (init Fr Lambda) = Some (Ok B) <->
  exists (n : nat) (s s2 : state),
    (n <= fuel)%nat /\
    Spec.stops_at Fr Lambda n s /\
    rotate s = Ok s2 /\
    B = Spec.choose (Spec.first_candidate s)
                    (Spec.pre_stop_candidate Fr Lambda s)
                    (Spec.next_candidate s2).
Proof.
  split.
  - intros H.
    destruct (loop_first_stop Fr Lambda fuel _ B H)
      as (n & s & Hn & Hr & Hu & Hfirst & Hs).
    rewrite select_choose in Hs.
    destruct (rotate s) as [s2 | e] eqn:R; [ | discriminate].
    cbn [bind] in Hs. injection Hs as <-.
    exists n, s, s2. split; [lia | ].
    split; [ | split; [exact R | reflexivity]].
    unfold Spec.stops_at. split; [lia | ]. split; [exact Hr | ].
    split; assumption.
  - intros (n & s & s2 & Hn & (H1 & Hr & Hu & Hfirst) & R & ->).
    apply (loop_mono Fr Lambda n fuel); [exact Hn | ].
    rewrite (first_stop_loop Fr Lambda n _ s H1 Hr Hu Hfirst).
    rewrite select_choose, R. reflexivity.
Qed.

Lemma basis_selection_witness :
  loop 2 13 3 (init 13 3) = Some (Ok (mkBasis 3 (-1) 1 4)).
Proof.
  apply (basis_selection 13 3 2 (mkBasis 3 (-1) 1 4)).
  exists 2%nat, (mkState 1 3 1 (-4) 0 1), (mkState 0 1 (-3) 13 1 (-4)).
  split; [lia | ]. split; [ | split; vm_compute; reflexivity].
  unfold Spec.stops_at. split; [lia | ].
  split; [vm_compute; reflexivity | ]. split; [vm_compute; reflexivity | ].
  intros m sm Hm. assert (m = 1%nat) as -> by lia.
  vm_compute. intros E. injection E as <-. discriminate.
Defined.

(** ** C3: the vectors lie in the sublattice *)

Lemma prime_7 : Z.prime 7.
Proof.
  split; [lia | ]. intros n Hn [q Hq].
  assert (C : n = 2 \/ n = 3 \/ n = 4 \/ n = 5 \/ n = 6) by lia.
  repeat (destruct C as [-> | C]; [lia | ]). lia.
Qed.

Lemma prime_13 : Z.prime 13.
Proof.
  split; [lia | ]. intros n Hn [q Hq].
  assert (C : n = 2 \/ n = 3 \/ n = 4 \/ n = 5 \/ n = 6 \/ n = 7 \/
              n = 8 \/ n = 9 \/ n = 10 \/ n = 11 \/ n = 12) by lia.
  repeat (destruct C as [-> | C]; [lia | ]). lia.
Qed.

Lemma prime_coprime (Fr Lambda : Z) :
  Z.prime Fr -> 0 < Lambda < Fr -> Z.gcd Fr Lambda = 1.
Proof.
  intros P H. apply (Z.coprime_prime_small Fr Lambda P). lia.
Qed.

(** C3, as the code has it.  For every prime [Fr >= 5] and every [lambda]
    with [0 < lambda < Fr] the loop returns a basis, the same one however
    many iterations are allowed beyond those it needs; both vectors
    satisfy [a_i + b_i*lambda = 0 (mod Fr)] and neither is the zero
    vector. *)
Theorem basis_in_sublattice (Fr Lambda : Z) :
  Z.prime Fr -> 5 <= Fr -> 0 < Lambda < Fr ->
  exists (n : nat) (B : basis),
    loop n Fr Lambda (init Fr Lambda) = Some (Ok B) /\
    (forall (m : nat) (r : result basis),
        loop m Fr Lambda (init Fr Lambda) = Some r -> r = Ok B) /\
    Spec.in_lattice Fr Lambda (a1 B) (b1 B) /\
    Spec.in_lattice Fr Lambda (a2 B) (b2 B) /\
    Spec.nonzero (a1 B) (b1 B) /\
    Spec.nonzero (a2 B) (b2 B).
Proof.
  intros P H5 HL.
  destruct (loop_total Fr Lambda ltac:(lia) ltac:(lia)
              (prime_coprime Fr Lambda P HL)) as (n & B & H).
  exists n, B. split; [exact H | ].
  split.
  { intros m r Hm. symmetry.
    exact (loop_deterministic Fr Lambda n m _ _ _ H Hm). }
  destruct (loop_lattice Fr Lambda n B H) as [L1 L2].
  destruct (loop_nonzero Fr Lambda n B ltac:(lia) H) as [N1 N2].
  repeat split; assumption.
Qed.

Lemma basis_in_sublattice_witness :
  exists (n : nat) (B : basis),
    loop n 13 3 (init 13 3) = Some (Ok B) /\
    (forall (m : nat) (r : result basis),
        loop m 13 3 (init 13 3) = Some r -> r = Ok B) /\
    Spec.in_lattice 13 3 (a1 B) (b1 B) /\
    Spec.in_lattice 13 3 (a2 B) (b2 B) /\
    Spec.nonzero (a1 B) (b1 B) /\
    Spec.nonzero (a2 B) (b2 B).
Proof.
  apply (basis_in_sublattice 13 3).
  - exact prime_13.
  - lia.
  - lia.
Defined.

(** C3 as stated fails: for the prime [Fr = 13] and [lambda = 0], and for
    the prime [Fr = 3] with its eigenvalue [lambda = 1], the loop raises
    [ZeroDivisionError] and no vectors are produced, whatever the number
    of iterations allowed. *)
Lemma basis_in_sublattice_counterexample :
  (Z.prime 13 /\ 0 <= 0 < 13 /\
   forall (n : nat) (B : basis), loop n 13 0 (init 13 0) <> Some (Ok B)) /\
  (Z.prime 3 /\ 0 <= 1 < 3 /\ (1 * 1 + 1 + 1) mod 3 = 0 /\
   forall (n : nat) (B : basis), loop n 3 1 (init 3 1) <> Some (Ok B)).
Proof.
  split.
  - split; [exact prime_13 | ]. split; [lia | ].
    intros n B H.
    assert (E : loop 1 13 0 (init 13 0) = Some (Raise ZeroDivisionError))
      by (vm_compute; reflexivity).
    pose proof (loop_deterministic 13 0 _ _ _ _ _ H E). discriminate.
  - split; [exact Z.prime_3 | ]. split; [lia | ]. split; [reflexivity | ].
    intros n B H.
    assert (E : loop 2 3 1 (init 3 1) = Some (Raise ZeroDivisionError))
      by (vm_compute; reflexivity).
    pose proof (loop_deterministic 3 1 _ _ _ _ _ H E). discriminate.
Qed.

(** ** C8: no validation of the inputs *)

(** C8, as the code has it.  Lines 166-200 check nothing about their
    inputs and have no error for invalid parameters: for every [Fr >= 4]
    and [lambda >= 0] with [gcd(Fr, lambda) = 1] -- [Fr] prime or not,
    [lambda] below [Fr] or not -- they return a basis. *)
Theorem no_parameter_validation (Fr Lambda : Z) :
  4 <= Fr -> 0 <= Lambda -> Z.gcd Fr Lambda = 1 ->
  exists (n : nat) (B : basis),
    basis_reduction n Fr Lambda = Some (Ok B).
Proof.
  intros HF HL Hg.
  destruct (loop_total Fr Lambda HF HL Hg) as (n & B & H).
  exists n, B. rewrite basis_reduction_nonneg by lia. exact H.
Qed.

Lemma no_parameter_validation_witness :
  exists (n : nat) (B : basis), basis_reduction n 15 19 = Some (Ok B).
Proof.
  apply (no_parameter_validation 15 19).
  - lia.
  - lia.
  - vm_compute. reflexivity.
Defined.

(** C8 as stated fails: [Fr = 15] is not prime and [lambda = 19] is
    outside [[0, Fr)], yet lines 166-200 return a basis for [(15, 4)] and
    for [(15, 19)] and raise nothing. *)
Lemma no_parameter_validation_counterexample :
  ~ Z.prime 15 /\
  basis_reduction 3 15 4 = Some (Ok (mkBasis 3 3 1 (-4))) /\
  ~ (0 <= 19 < 15) /\
  exists B : basis, basis_reduction 4 15 19 = Some (Ok B).
Proof.
  split.
  { intros [_ R]. apply (R 3); [lia | ]. exists 5. reflexivity. }
  split; [vm_compute; reflexivity | ].
  split; [lia | ].
  eexists. vm_compute. reflexivity.
Qed.

(** ** C9: the loop halts within logarithmically many iterations *)

(** C9.  For every [Fr > 0] (prime or not) and [0 <= lambda < Fr] the
    loop is left -- with a basis or with the exception of a division
    step -- within [2*log2(Fr) + 4] iterations, and at every iteration the
    new remainder is non-negative and strictly below the previous one.
    No iteration limit is therefore ever reached. *)
Theorem loop_halts_logarithmic (Fr Lambda : Z) :
  0 < Fr -> 0 <= Lambda < Fr ->
  (exists (n : nat) (r : result basis),
      Z.of_nat n <= 2 * Z.log2 Fr + 4 /\
      loop n Fr Lambda (init Fr Lambda) = Some r) /\
  (forall s s' : state,
      at_head Fr Lambda s -> rotate s = Ok s' -> 0 <= u s' < u s).
Proof.
  intros HF HL. split.
  - set (k := Z.to_nat (2 * Z.log2 Fr + 2)).
    pose proof (Z.log2_nonneg Fr) as Hlog.
    exists (S (S k)).
    assert (Hu : u (init Fr Lambda) <> 0) by (cbn; lia).
    assert (Hk : Z.of_nat (S (S k)) <= 2 * Z.log2 Fr + 4) by (subst k; lia).
    remember (S k) as k1 eqn:Ek1.
    cbn [loop]. rewrite (rotate_nonzero _ Hu), (rotated_init Fr Lambda HL).
    cbn [u]. destruct (Lambda <? bound Fr).
    + eexists. split; [exact Hk | reflexivity].
    + subst k1.
      destruct (loop_halts_from Fr Lambda k (mkState Lambda Fr 0 1 1 0))
        as [r Hr].
      * cbn [u v]. lia.
      * cbn [u v]. subst k. rewrite Z2Nat.id by lia.
        destruct (Z.log2_spec Fr HF) as [_ Hup].
        replace (2 * Z.log2 Fr + 2) with (Z.succ (Z.log2 Fr) + Z.succ (Z.log2 Fr))
          by lia.
        rewrite Z.pow_add_r by lia. nia.
      * exists r. split; [exact Hk | exact Hr].
  - intros s s'. apply at_head_step_decreases, HL.
Qed.

Lemma loop_halts_logarithmic_witness :
  (exists (n : nat) (r : result basis),
      Z.of_nat n <= 2 * Z.log2 13 + 4 /\
      loop n 13 3 (init 13 3) = Some r) /\
  (forall s s' : state,
      at_head 13 3 s -> rotate s = Ok s' -> 0 <= u s' < u s).
Proof.
  apply (loop_halts_logarithmic 13 3); lia.
Defined.

(** ** C4: the bound derived from the norms *)

Lemma log2_up_cases (m : Z) :
  0 < m ->
  (m = 2 ^ Z.log2 m /\ Z.log2_up m = Z.log2 m) \/
  (m <> 2 ^ Z.log2 m /\ Z.log2_up m = Z.log2 m + 1).
Proof.
  intros H.
  pose proof (Z.le_log2_log2_up m) as Lo.
  pose proof (Z.le_log2_up_succ_log2 m) as Hi.
  pose proof (Z.log2_log2_up_exact m H) as Ex.
  destruct (Z.eq_dec m (2 ^ Z.log2 m)) as [E | N].
  - left. split; [exact E | ]. symmetry. apply Ex. eexists. exact E.
  - right. split; [exact N | ].
    destruct (Z.eq_dec (Z.log2 m) (Z.log2_up m)) as [E | N']; [ | lia].
    exfalso. apply Ex in E as [b Hb]. apply N.
    rewrite Hb at 2. rewrite Z.log2_pow2; [exact Hb | ].
    destruct (Z.le_gt_cases 0 b) as [Hb0 | Hb0]; [exact Hb0 | ].
    rewrite Z.pow_neg_r in Hb by lia. lia.
Qed.

(** C4, as the code has it.  For a basis with a non-zero vector, with
    [m = max(a1^2+b1^2, a2^2+b2^2)], the bound is
    [limit = floor((nbits(m) + 1) / 2)] for the bit length
    [nbits(m) = floor(log2 m) + 1], that is [floor(log2(m) / 2) + 1]; the
    formula of the specification gives the same number when the bit length
    of [m] is odd or [m] is a power of two, and one more otherwise. *)
Theorem limit_formula (B : basis) :
  0 < max_norm_squared B ->
  let m := max_norm_squared B in
  Reducer.limit B = (Sage.nbits m + 1) / 2 /\
  Reducer.limit B = Z.log2 m / 2 + 1 /\
  Spec.limit B =
  Reducer.limit B +
  (if Z.even (Sage.nbits m) && negb (m =? 2 ^ Z.log2 m) then 1 else 0).
Proof.
  intros H m. subst m. set (m := max_norm_squared B) in *.
  pose proof (limit_floor B) as E. fold m in E.
  generalize dependent (Reducer.limit B). intros lim E.
  unfold Spec.limit. fold m. clearbody m.
  pose proof (nbits_pos m H) as Nb.
  pose proof (Z.log2_nonneg m) as Hl.
  split; [exact E | ].
  split.
  { rewrite E, Nb.
    replace (Z.log2 m + 1 + 1) with (Z.log2 m + 1 * 2) by ring.
    rewrite Z.div_add by lia. reflexivity. }
  unfold Spec.ceil_half. rewrite E, Nb.
  destruct (log2_up_cases m H) as [[Ep ->] | [Np ->]].
  - rewrite <- Ep, Z.eqb_refl, andb_false_r.
    Z.to_euclidean_division_equations. lia.
  - destruct (Z.eqb_spec m (2 ^ Z.log2 m)) as [? | _]; [contradiction | ].
    rewrite andb_true_r.
    destruct (Z.even (Z.log2 m + 1)) eqn:Ev.
    + apply Z.even_spec in Ev as [h Hh].
      Z.to_euclidean_division_equations. lia.
    + rewrite <- Z.negb_odd in Ev. apply negb_false_iff, Z.odd_spec in Ev.
      destruct Ev as [h Hh]. Z.to_euclidean_division_equations. lia.
Qed.

Lemma limit_formula_witness :
  let m := max_norm_squared (mkBasis 2 (-1) 1 3) in
  Reducer.limit (mkBasis 2 (-1) 1 3) = (Sage.nbits m + 1) / 2 /\
  Reducer.limit (mkBasis 2 (-1) 1 3) = Z.log2 m / 2 + 1 /\
  Spec.limit (mkBasis 2 (-1) 1 3) =
  Reducer.limit (mkBasis 2 (-1) 1 3) +
  (if Z.even (Sage.nbits m) && negb (m =? 2 ^ Z.log2 m) then 1 else 0).
Proof.
  apply (limit_formula (mkBasis 2 (-1) 1 3)). vm_compute. reflexivity.
Defined.

(** C4 as stated fails: for [Fr = 7], [lambda = 2] the loop returns the
    vectors [(2, -1)] and [(1, 3)], whose larger squared norm is [10]; the
    script's bound is [2] while the formula of the specification gives
    [3]. *)
Lemma limit_formula_counterexample :
  loop 2 7 2 (init 7 2) = Some (Ok (mkBasis 2 (-1) 1 3)) /\
  max_norm_squared (mkBasis 2 (-1) 1 3) = 10 /\
  Reducer.limit (mkBasis 2 (-1) 1 3) = 2 /\
  Spec.limit (mkBasis 2 (-1) 1 3) = 3 /\
  Reducer.limit (mkBasis 2 (-1) 1 3) <> Spec.limit (mkBasis 2 (-1) 1 3).
Proof.
  repeat split; try (vm_compute; reflexivity).
  vm_compute. discriminate.
Qed.

(** ** C6: the rounding of the coefficients *)

(** C6.  For every modulus [Fr > 0] and every scalar [k] the two
    coefficients are computed without error, and [c1] is the integer
    nearest to the exact quotient [b2*k / Fr], [c2] the one nearest to
    [-b1*k / Fr], a quotient exactly half-way between two integers going
    to the one of larger magnitude. *)
Theorem rounding_half_away (G : globals) (k : Z) :
  0 < Fr G ->
  exists c1 c2 : Z,
    coefficients G k = Ok (c1, c2) /\
    Spec.nearest_half_away (b2 (vecs G) * k) (Fr G) c1 /\
    Spec.nearest_half_away (- b1 (vecs G) * k) (Fr G) c2.
Proof.
  intros H. eexists. eexists.
  split; [apply coefficients_ok; lia | ].
  split; apply round_quotient; exact H.
Qed.

Lemma rounding_half_away_witness :
  exists c1 c2 : Z,
    coefficients (mkGlobals 6 (mkBasis 0 (-1) 0 1) 3) 3 = Ok (c1, c2) /\
    Spec.nearest_half_away (1 * 3) 6 c1 /\
    Spec.nearest_half_away (- -1 * 3) 6 c2.
Proof.
  apply (rounding_half_away (mkGlobals 6 (mkBasis 0 (-1) 0 1) 3) 3).
  cbn. lia.
Defined.

Example round_ties :
  Sage.round (Sage.quotient 1 2) = 1 /\
  Sage.round (Sage.quotient (-1) 2) = -1 /\
  Sage.round (Sage.quotient 5 2) = 3 /\
  Sage.round (Sage.quotient (-5) 2) = -3 /\
  Sage.round (Sage.quotient 18 7) = 3 /\
  Sage.round (Sage.quotient (-33) 13) = -3.
Proof. vm_compute. repeat split; reflexivity. Qed.

(** ** C10: negative components *)

(** C10.  The bit length the replacement tests is that of the absolute
    value, so a pair whose two components fit within [limit] bits is
    returned exactly as lines 227-228 compute it, negative components
    included; and this happens for a scalar in range: for [Fr = 7],
    [lambda = 2], with the basis and the bound the script derives, the
    scalar [k = 6] is decomposed into [(-1, 0)] and [k = 4] into
    [(-1, -1)]. *)
Theorem negative_components (G : globals) (k : Z) (c : Z * Z) :
  coefficients G k = Ok c ->
  Sage.nbits (fst (raw_pair G c k)) <= limit G ->
  Sage.nbits (snd (raw_pair G c k)) <= limit G ->
  get_endomorphism_scalar_decomposition G k = Ok (raw_pair G c k) /\
  (forall n : Z, Sage.nbits (- n) = Sage.nbits n) /\
  (exists B : basis,
      loop 2 7 2 (init 7 2) = Some (Ok B) /\
      0 <= 6 < 7 /\
      get_endomorphism_scalar_decomposition (globals_of 7 B) 6 = Ok (-1, 0) /\
      get_endomorphism_scalar_decomposition (globals_of 7 B) 4
      = Ok (-1, -1)).
Proof.
  intros Hc F1 F2.
  split; [apply decomposition_fits; assumption | ].
  split; [exact nbits_opp | ].
  eexists. split; [vm_compute; reflexivity | ].
  split; [lia | ]. split; vm_compute; reflexivity.
Qed.

Lemma negative_components_witness :
  get_endomorphism_scalar_decomposition
    (globals_of 7 (mkBasis 2 (-1) 1 3)) 6 = Ok (-1, 0).
Proof.
  apply (negative_components (globals_of 7 (mkBasis 2 (-1) 1 3)) 6 (3, 1)).
  - vm_compute. reflexivity.
  - vm_compute. discriminate.
  - vm_compute. discriminate.
Defined.

(** ** C1 and C2: the pair returned and the bound on it *)







(** ** The other root *)

(** The two vectors the loop returns have determinant [Fr] or [-Fr],
    according to the parity of the number of steps and the branch of the
    tie-break; the rounding of lines 225-226 is the one that suits the
    determinant [Fr]. *)
Example determinant_sign :
  loop 2 13 3 (init 13 3) = Some (Ok (mkBasis 3 (-1) 1 4)) /\
  Spec.det (mkBasis 3 (-1) 1 4) = 13 /\
  loop 3 13 9 (init 13 9) = Some (Ok (mkBasis 4 1 1 (-3))) /\
  Spec.det (mkBasis 4 1 1 (-3)) = -13.
Proof. vm_compute. repeat split; reflexivity. Qed.

(** Small moduli, with the root that gives the determinant [-Fr].  For
    [Fr = 7] and the root [4] the loop returns [(3, 1)] and [(1, -2)] and
    the bound [2]; at [k = 6] the function computes [k1 = 13], replaces it
    by [7 - 13 = -6] and raises [AssertionError]. *)
Example decomposition_of_6_mod_7 :
  (4 * 4 + 4 + 1) mod 7 = 0 /\
  loop 3 7 4 (init 7 4) = Some (Ok (mkBasis 3 1 1 (-2))) /\
  Reducer.limit (mkBasis 3 1 1 (-2)) = 2 /\
  coefficients (globals_of 7 (mkBasis 3 1 1 (-2))) 6 = Ok (-2, -1) /\
  raw_pair (globals_of 7 (mkBasis 3 1 1 (-2))) (-2, -1) 6 = (13, 0) /\
  replace (globals_of 7 (mkBasis 3 1 1 (-2))) 13 = -6 /\
  get_endomorphism_scalar_decomposition (globals_of 7 (mkBasis 3 1 1 (-2))) 6
  = Raise AssertionError.
Proof. vm_compute. repeat split; reflexivity. Qed.

(** For [Fr = 13] and the root [9] the loop returns [(4, 1)] and
    [(1, -3)] and the bound [3]; at [k = 11] the first component is [24],
    of 5 bits, its replacement [13 - 24 = -11] has 4 bits, and the first
    assertion fires; [k = 12] fails in the same way. *)
Example bound_exceeded_mod_13 :
  (9 * 9 + 9 + 1) mod 13 = 0 /\
  loop 3 13 9 (init 13 9) = Some (Ok (mkBasis 4 1 1 (-3))) /\
  Reducer.limit (mkBasis 4 1 1 (-3)) = 3 /\
  coefficients (globals_of 13 (mkBasis 4 1 1 (-3))) 11 = Ok (-3, -1) /\
  raw_pair (globals_of 13 (mkBasis 4 1 1 (-3))) (-3, -1) 11 = (24, 0) /\
  Sage.nbits 24 = 5 /\
  replace (globals_of 13 (mkBasis 4 1 1 (-3))) 24 = -11 /\
  Sage.nbits (-11) = 4 /\
  get_endomorphism_scalar_decomposition
    (globals_of 13 (mkBasis 4 1 1 (-3))) 11 = Raise AssertionError /\
  get_endomorphism_scalar_decomposition
    (globals_of 13 (mkBasis 4 1 1 (-3))) 12 = Raise AssertionError.
Proof. vm_compute. repeat split; reflexivity. Qed.

(** The group orders of [Params] with the root that is not the one of
    [Params.configurations]: the determinant is [-Fr] and the scalar
    [Fr - 1] trips the assertion. *)
Example bound_exceeded_BN256 :
  let Fr := Params.BN256_Fr in
  let Lambda := 4407920970296243842393367215006156084916469457145843978461 in
  (Lambda * Lambda + Lambda + 1) mod Fr = 0 /\
  exists B : basis,
    loop 5 Fr Lambda (init Fr Lambda) = Some (Ok B) /\
    Spec.det B = - Fr /\
    get_endomorphism_scalar_decomposition (globals_of Fr B) (Fr - 1)
    = Raise AssertionError.
Proof.
  cbv zeta. split; [vm_compute; reflexivity | ].
  eexists. split; [vm_compute; reflexivity | ].
  split; vm_compute; reflexivity.
Qed.

Example bound_exceeded_BLS12 :
  let Fr := Params.BLS12_Fr in
  let Lambda :=
    52435875175126190479447740508185965837461563690374988244538805122978187051009
  in
  (Lambda * Lambda + Lambda + 1) mod Fr = 0 /\
  exists B : basis,
    loop 3 Fr Lambda (init Fr Lambda) = Some (Ok B) /\
    Spec.det B = - Fr /\
    get_endomorphism_scalar_decomposition (globals_of Fr B) (Fr - 1)
    = Raise AssertionError.
Proof.
  cbv zeta. split; [vm_compute; reflexivity | ].
  eexists. split; [vm_compute; reflexivity | ].
  split; vm_compute; reflexivity.
Qed.

(** With the root of [Params.configurations] every integer is
    decomposed within the bound. *)
Example bound_holds_BLS12 (k : Z) :
  let Fr := Params.BLS12_Fr in
  let Lambda := 228988810152649578064853576960394133503 in
  exists (B : basis) (k1 k2 : Z),
    loop 2 Fr Lambda (init Fr Lambda) = Some (Ok B) /\
    get_endomorphism_scalar_decomposition (globals_of Fr B) k = Ok (k1, k2) /\
    Sage.nbits k1 <= Reducer.limit B /\
    Sage.nbits k2 <= Reducer.limit B /\
    (k1 + k2 * Lambda) mod Fr = k mod Fr.
Proof.
  cbv zeta.
  set (B := mkBasis 228988810152649578064853576960394133503 (-1)
                    1 228988810152649578064853576960394133504).
  assert (HB : loop 2 Params.BLS12_Fr 228988810152649578064853576960394133503
                 (init Params.BLS12_Fr 228988810152649578064853576960394133503)
               = Some (Ok B)) by (vm_compute; reflexivity).
  destruct (loop_lattice _ _ _ _ HB) as [L1 L2].
  destruct (decomposition_oriented_exact (globals_of Params.BLS12_Fr B))
    with (Lambda := 228988810152649578064853576960394133503) (k := k)
    as (k1 & k2 & Hd & F1 & F2 & Id);
    [vm_compute; reflexivity | vm_compute; reflexivity | reflexivity
    | exact L1 | exact L2 | ].
  exists B, k1, k2. repeat split; assumption.
Qed.

(** * Further properties of the script *)

(** ** The loop: when it returns and what it returns *)

Section LoopOutcome.

Variables Fr Lambda : Z.
Hypothesis Fr_pos : 0 < Fr.
Hypothesis Lambda_range : 0 <= Lambda < Fr.

Implicit Types s : state.

Lemma bound_pos : 1 <= bound Fr.
Proof.
  unfold bound. change 1 with (Z.sqrt 1).
  apply Z.sqrt_le_mono. lia.
Qed.

Lemma bound_le : bound Fr <= Fr.
Proof. unfold bound. apply Z.sqrt_le_lin. lia. Qed.

Lemma at_head_above s : at_head Fr Lambda s -> bound Fr <= u s.
Proof.
  induction 1 as [ | s s' _ _ _ T].
  - cbn [init u]. exact bound_le.
  - apply Z.ltb_ge, T.
Qed.

Lemma at_head_gcd s :
  at_head Fr Lambda s ->
  0 < u s /\ 0 <= v s /\ Z.gcd (u s) (v s) = Z.gcd Fr Lambda.
Proof.
  intros Hh. pose proof (at_head_above s Hh) as Ab. pose proof bound_pos as Bp.
  split; [lia | ].
  induction Hh as [ | s s' Hh IH R T].
  - cbn [init u v]. split; [lia | reflexivity].
  - pose proof (at_head_above s Hh) as Ab'.
    destruct (IH Ab') as [Hv Hg].
    apply rotate_ok in R as [Hu ->].
    destruct (rotated_nonneg s Hv ltac:(lia)) as [Er _]. rewrite Er.
    unfold Spec.rotated. cbn [v]. split; [lia | ].
    rewrite Z.gcd_mod by lia. exact Hg.
Qed.

(** A step from the head of the loop keeps the greatest common divisor. *)
Lemma step_gcd s s' :
  at_head Fr Lambda s -> rotate s = Ok s' ->
  0 <= u s' /\ v s' = u s /\ Z.gcd (u s') (v s') = Z.gcd Fr Lambda.
Proof.
  intros Hh R. destruct (at_head_gcd s Hh) as (Hu & Hv & Hg).
  apply rotate_ok in R as [_ ->].
  destruct (rotated_nonneg s Hv Hu) as [Er _]. rewrite Er.
  unfold Spec.rotated. cbn [v].
  pose proof (Z.mod_pos_bound (v s) (u s) Hu).
  split; [lia | ]. split; [reflexivity | ].
  rewrite Z.gcd_mod by lia. exact Hg.
Qed.

Lemma loop_exit_raise (fuel : nat) s (e : exn) :
  at_head Fr Lambda s ->
  loop fuel Fr Lambda s = Some (Raise e) ->
  exists s0 s' : state,
    at_head Fr Lambda s0 /\ rotate s0 = Ok s' /\
    u s' < bound Fr /\ select Fr Lambda s' = Raise e.
Proof.
  revert s. induction fuel as [ | fuel IH]; intros s Hh H; [discriminate | ].
  cbn [loop] in H. destruct (rotate s) as [s1 | e1] eqn:R.
  - destruct (u s1 <? bound Fr) eqn:T.
    + exists s, s1. split; [exact Hh | ]. split; [exact R | ].
      split; [apply Z.ltb_lt, T | congruence].
    + apply (IH s1); [ | exact H]. eapply head_next; eassumption.
  - exfalso. apply rotate_raise in R as [_ E0].
    destruct (at_head_gcd s Hh) as (Hu & _). lia.
Qed.

Lemma loop_halts :
  exists (n : nat) (r : result basis),
    loop n Fr Lambda (init Fr Lambda) = Some r.
Proof.
  set (k := Z.to_nat (2 * Z.log2 Fr + 2)).
  pose proof (Z.log2_nonneg Fr) as Hlog.
  exists (S (S k)).
  assert (Hu : u (init Fr Lambda) <> 0) by (cbn; lia).
  remember (S k) as k1 eqn:Ek1.
  cbn [loop]. rewrite (rotate_nonzero _ Hu), (rotated_init Fr Lambda Lambda_range).
  cbn [u]. destruct (Lambda <? bound Fr); [eexists; reflexivity | ].
  subst k1. apply loop_halts_from.
  - cbn [u v]. lia.
  - cbn [u v]. subst k. rewrite Z2Nat.id by lia.
    destruct (Z.log2_spec Fr Fr_pos) as [_ Hup].
    replace (2 * Z.log2 Fr + 2)
      with (Z.succ (Z.log2 Fr) + Z.succ (Z.log2 Fr)) by lia.
    rewrite Z.pow_add_r by lia. nia.
Qed.

Lemma loop_ok_gcd (n : nat) (B : basis) :
  loop n Fr Lambda (init Fr Lambda) = Some (Ok B) ->
  Z.gcd Fr Lambda < bound Fr.
Proof.
  intros H.
  destruct (loop_exit Fr Lambda n _ B (head_init Fr Lambda) H)
    as (s0 & s' & Hh & R & Lt & Hs).
  destruct (step_gcd s0 s' Hh R) as (Hu & _ & Hg).
  rewrite select_choose in Hs.
  destruct (rotate s') as [s2 | e] eqn:R'; [ | discriminate].
  apply rotate_ok in R' as [Hnz _].
  assert (D : (Z.gcd (u s') (v s') | u s')) by apply Z.gcd_divide_l.
  apply Z.divide_pos_le in D; lia.
Qed.

Lemma loop_raise_gcd (n : nat) (e : exn) :
  loop n Fr Lambda (init Fr Lambda) = Some (Raise e) ->
  bound Fr <= Z.gcd Fr Lambda.
Proof.
  intros H.
  destruct (loop_exit_raise n _ e (head_init Fr Lambda) H)
    as (s0 & s' & Hh & R & Lt & Hs).
  destruct (step_gcd s0 s' Hh R) as (Hu & Ev & Hg).
  apply select_raise in Hs as [_ E0].
  rewrite E0, Ev in Hg. cbn [Z.gcd] in Hg.
  pose proof (at_head_above s0 Hh). pose proof bound_pos.
  rewrite <- Hg. rewrite Z.abs_eq; lia.
Qed.

End LoopOutcome.

Lemma loop_outcome_gcd (Fr Lambda : Z) :
  0 < Fr -> 0 <= Lambda < Fr ->
  ((exists (n : nat) (B : basis),
       loop n Fr Lambda (init Fr Lambda) = Some (Ok B))
   <-> Z.gcd Fr Lambda < bound Fr) /\
  ((exists n : nat,
       loop n Fr Lambda (init Fr Lambda) = Some (Raise ZeroDivisionError))
   <-> bound Fr <= Z.gcd Fr Lambda).
Proof.
  intros HF HL.
  destruct (loop_halts Fr Lambda HF HL) as (n & r & H).
  split; split.
  - intros (m & B & Hm). eapply loop_ok_gcd; eassumption.
  - intros Hg. destruct r as [B | e]; [exists n, B; exact H | ].
    pose proof (loop_raise_gcd Fr Lambda HF HL n e H). lia.
  - intros (m & Hm). eapply loop_raise_gcd; eassumption.
  - intros Hg. destruct r as [B | e].
    + pose proof (loop_ok_gcd Fr Lambda HF HL n B H). lia.
    + exists n. rewrite H. rewrite (loop_raise Fr Lambda n _ e H). reflexivity.
Qed.

(** X1.  For [Fr > 0] and [0 <= lambda < Fr] the loop returns a basis
    exactly when [gcd(Fr, lambda) < isqrt(Fr)], and raises
    [ZeroDivisionError] -- at the extra division of line 187 -- exactly
    when [gcd(Fr, lambda) >= isqrt(Fr)]. *)
Theorem loop_returns_iff_small_gcd (Fr Lambda : Z) :
  0 < Fr -> 0 <= Lambda < Fr ->
  ((exists (n : nat) (B : basis),
       loop n Fr Lambda (init Fr Lambda) = Some (Ok B))
   <-> Z.gcd Fr Lambda < bound Fr) /\
  ((exists n : nat,
       loop n Fr Lambda (init Fr Lambda) = Some (Raise ZeroDivisionError))
   <-> bound Fr <= Z.gcd Fr Lambda).
Proof. intros HF HL. exact (loop_outcome_gcd Fr Lambda HF HL). Qed.

Lemma loop_returns_iff_small_gcd_witness :
  ((exists (n : nat) (B : basis), loop n 15 5 (init 15 5) = Some (Ok B))
   <-> Z.gcd 15 5 < bound 15) /\
  ((exists n : nat, loop n 15 5 (init 15 5) = Some (Raise ZeroDivisionError))
   <-> bound 15 <= Z.gcd 15 5).
Proof. apply (loop_returns_iff_small_gcd 15 5); lia. Defined.

(** X2.  Whatever the integers [Fr] and [lambda], the two vectors the
    loop returns have determinant [a1*b2 - a2*b1] equal to [Fr] or to
    [-Fr]: they span the whole sublattice, in one orientation or the
    other. *)
Theorem basis_determinant (Fr Lambda : Z) (fuel : nat) (B : basis) :
  loop fuel Fr Lambda (init Fr Lambda) = Some (Ok B) ->
  a1 B * b2 B - a2 B * b1 B = Fr \/ a1 B * b2 B - a2 B * b1 B = - Fr.
Proof. intros H. exact (loop_det Fr Lambda fuel B H). Qed.

Lemma basis_determinant_witness :
  3 * 3 - 1 * -1 = 10 \/ 3 * 3 - 1 * -1 = - 10.
Proof.
  apply (basis_determinant 10 3 2 (mkBasis 3 (-1) 1 3)).
  vm_compute. reflexivity.
Defined.

Section CrossSum.

Variables Fr Lambda : Z.
Hypothesis Lambda_range : 0 <= Lambda < Fr.

Lemma cross_sum_rotated (s : state) :
  Spec.alternating s -> u s <> 0 ->
  Euclid.cross_sum Fr s -> Euclid.cross_sum Fr (Spec.rotated s).
Proof.
  intros (Huv & Hy & Hyy) Hu C.
  destruct (rotated_nonneg s ltac:(lia) ltac:(lia)) as [_ Eq].
  unfold Euclid.cross_sum, Spec.rotated in *. cbn [u v y1 y2].
  rewrite Eq.
  assert (Hq : 0 <= v s / u s) by (apply Z.div_pos; lia).
  set (q := v s / u s) in *. clearbody q.
  assert (A : Z.abs (y2 s - q * y1 s) = Z.abs (y2 s) + q * Z.abs (y1 s)).
  { destruct (Z.le_ge_cases 0 (y1 s)) as [P | P].
    - assert (y2 s <= 0) by nia.
      rewrite (Z.abs_eq (y1 s)) by lia. rewrite (Z.abs_neq (y2 s)) by lia.
      rewrite Z.abs_neq by nia. ring.
    - assert (0 <= y2 s) by nia.
      rewrite (Z.abs_neq (y1 s)) by lia. rewrite (Z.abs_eq (y2 s)) by lia.
      rewrite Z.abs_eq by nia. ring. }
  rewrite A. rewrite <- C. ring.
Qed.

Lemma step_cross_sum (s s' : state) :
  at_head Fr Lambda s -> rotate s = Ok s' -> Euclid.cross_sum Fr s'.
Proof.
  intros Hh. revert s'. induction Hh as [ | s0 s1 Hh IH R T]; intros s' R'.
  - apply rotate_ok in R' as [_ ->].
    rewrite (rotated_init Fr Lambda Lambda_range).
    unfold Euclid.cross_sum. cbn [u v y1 y2]. cbn. lia.
  - pose proof (at_head_step_shape Fr Lambda s0 s1 Lambda_range Hh R) as J.
    specialize (IH s1 R).
    apply rotate_ok in R' as [Hu ->].
    apply cross_sum_rotated; assumption.
Qed.

End CrossSum.

(** X3.  For [0 <= lambda < Fr], after every division step of the loop
    the remainders and the [y] coefficients satisfy
    [u*|y2| + v*|y1| = Fr]. *)
Theorem cross_sum_invariant (Fr Lambda : Z) (s s' : state) :
  0 <= Lambda < Fr ->
  at_head Fr Lambda s -> rotate s = Ok s' ->
  u s' * Z.abs (y2 s') + v s' * Z.abs (y1 s') = Fr.
Proof. intros HL Hh R. exact (step_cross_sum Fr Lambda HL s s' Hh R). Qed.

Lemma cross_sum_invariant_witness :
  3 * Z.abs 0 + 13 * Z.abs 1 = 13.
Proof.
  apply (cross_sum_invariant 13 3 (init 13 3) (mkState 3 13 0 1 1 0)).
  - lia.
  - apply head_init.
  - vm_compute. reflexivity.
Defined.

(** X4.  For [Fr > 0] and [0 <= lambda < Fr], one of the two vectors the
    loop returns is the first candidate [(r, -y1)] and is short:
    [0 < r < isqrt(Fr)] and [|y1| * isqrt(Fr) <= Fr]. *)
Theorem basis_has_short_vector (Fr Lambda : Z) (fuel : nat) (B : basis) :
  0 < Fr -> 0 <= Lambda < Fr ->
  loop fuel Fr Lambda (init Fr Lambda) = Some (Ok B) ->
  Euclid.short Fr (a1 B) (b1 B) \/ Euclid.short Fr (a2 B) (b2 B).
Proof.
  intros HF HL H.
  destruct (loop_exit Fr Lambda fuel _ B (head_init Fr Lambda) H)
    as (s0 & s' & Hh & R & Lt & Hs).
  pose proof (step_cross_sum Fr Lambda HL s0 s' Hh R) as C.
  destruct (step_gcd Fr Lambda HF HL s0 s' Hh R) as (Hu & Ev & _).
  pose proof (at_head_above Fr Lambda HF s0 Hh) as Ab.
  rewrite select_choose in Hs.
  destruct (rotate s') as [s2 | e] eqn:R'; [ | discriminate].
  cbn [bind] in Hs. injection Hs as <-.
  apply rotate_ok in R' as [Hnz _].
  assert (S : Euclid.short Fr (u s') (- y1 s')).
  { unfold Euclid.short, Euclid.cross_sum in *. split; [lia | ].
    rewrite Z.abs_opp.
    pose proof (Z.abs_nonneg (y1 s')). pose proof (Z.abs_nonneg (y2 s')).
    nia. }
  unfold Spec.choose, Spec.first_candidate. cbn [fst snd].
  match goal with |- context [if ?c then _ else _] => destruct c end;
    cbn [a1 b1 a2 b2]; [right | left]; exact S.
Qed.

Lemma basis_has_short_vector_witness :
  Euclid.short 13 3 (-1) \/ Euclid.short 13 1 4.
Proof.
  apply (basis_has_short_vector 13 3 2 (mkBasis 3 (-1) 1 4)).
  - lia.
  - lia.
  - vm_compute. reflexivity.
Defined.

(** X5.  The number [r_l = x2*Fr + y2*lambda] of line 185 is the remainder
    the stopping step divided by, and [t_l] its coefficient: the pre-stop
    candidate is [(u, -y1)] of the state before the last rotation. *)
Theorem pre_stop_is_previous_remainder (Fr Lambda : Z) (s s' : state) :
  at_head Fr Lambda s -> rotate s = Ok s' ->
  x2 s' * Fr + y2 s' * Lambda = u s /\ y2 s' = y1 s /\ v s' = u s.
Proof.
  intros Hh R. destruct (at_head_bezout Fr Lambda s Hh) as [Bu _].
  apply rotate_ok in R as [_ ->]. unfold Spec.rotated. cbn [x2 y2 v].
  split; [symmetry; exact Bu | split; reflexivity].
Qed.

Lemma pre_stop_is_previous_remainder_witness :
  1 * 13 + 0 * 3 = 13 /\ 0 = 0 /\ 13 = 13.
Proof.
  apply (pre_stop_is_previous_remainder 13 3 (init 13 3)
           (mkState 3 13 0 1 1 0)).
  - apply head_init.
  - vm_compute. reflexivity.
Defined.

(** ** The decomposition: what is returned and what is raised *)

Section Returned.

Lemma round_multiple (n d : Z) :
  0 < d -> Sage.round (Sage.quotient (n * d) d) = n.
Proof.
  intros Hd. destruct (round_quotient (n * d) d Hd) as [R _].
  set (c := Sage.round (Sage.quotient (n * d) d)) in *. clearbody c.
  replace (c * d - n * d) with ((c - n) * d) in R by ring.
  rewrite Z.abs_mul, (Z.abs_eq d) in R by lia.
  pose proof (Z.abs_nonneg (c - n)). nia.
Qed.

Lemma nbits_lt_pow2 (k L : Z) : Sage.nbits k <= L -> Z.abs k < 2 ^ L.
Proof.
  unfold Sage.nbits. destruct (Z.eqb_spec k 0) as [-> | N]; intros H.
  - cbn. apply Z.pow_pos_nonneg; lia.
  - apply Z.log2_lt_pow2; lia.
Qed.

Lemma decomposition_cases (G : globals) (k : Z) :
  Fr G <> 0 ->
  exists c : Z * Z,
    coefficients G k = Ok c /\
    let k1 := replace G (fst (raw_pair G c k)) in
    let k2 := replace G (snd (raw_pair G c k)) in
    (Sage.nbits k1 <= limit G /\ Sage.nbits k2 <= limit G /\
     get_endomorphism_scalar_decomposition G k = Ok (k1, k2)) \/
    ((limit G < Sage.nbits k1 \/ limit G < Sage.nbits k2) /\
     get_endomorphism_scalar_decomposition G k = Raise AssertionError).
Proof.
  intros H. pose proof (coefficients_ok G k H) as Hc.
  eexists. split; [exact Hc | ]. cbv zeta.
  rewrite (decomposition_stages G k _ Hc). cbv zeta.
  set (k1 := replace G _). set (k2 := replace G _).
  destruct (Z.leb_spec (Sage.nbits k1) (limit G)) as [L1 | L1];
    [ | right; split; [left; lia | reflexivity]].
  destruct (Z.leb_spec (Sage.nbits k2) (limit G)) as [L2 | L2];
    [ | right; split; [right; lia | reflexivity]].
  left. split; [exact L1 | ]. split; [exact L2 | reflexivity].
Qed.

Lemma decomposition_raises (G : globals) (k : Z) (e : exn) :
  Fr G <> 0 ->
  get_endomorphism_scalar_decomposition G k = Raise e -> e = AssertionError.
Proof.
  intros N0 H.
  destruct (decomposition_cases G k N0) as (c & _ & [(_ & _ & E) | (_ & E)]);
    rewrite E in H; [discriminate | congruence].
Qed.

Lemma zero_division_modulus (G : globals) (k : Z) :
  get_endomorphism_scalar_decomposition G k = Raise ZeroDivisionError ->
  Fr G = 0.
Proof.
  intros H. destruct (Z.eq_dec (Fr G) 0) as [E0 | N0]; [exact E0 | ].
  destruct (decomposition_cases G k N0) as (c & _ & [(_ & _ & E) | (_ & E)]);
    rewrite E in H; discriminate.
Qed.

End Returned.

(** X6.  Whenever a pair [(k1, k2)] is returned for vectors of the
    sublattice, it reconstructs [k] once each component is read with the
    sign the replacement of lines 229-232 left on it:
    [s1*k1 + s2*k2*lambda = k (mod Fr)], where [s_i] is [-1] if the [i]-th
    component was replaced by [Fr - k_i] and [1] if it was kept. *)
Theorem reconstruction_with_kept_signs (G : globals) (Lambda k k1 k2 : Z) :
  Spec.in_lattice (Fr G) Lambda (a1 (vecs G)) (b1 (vecs G)) ->
  Spec.in_lattice (Fr G) Lambda (a2 (vecs G)) (b2 (vecs G)) ->
  get_endomorphism_scalar_decomposition G k = Ok (k1, k2) ->
  exists c : Z * Z,
    coefficients G k = Ok c /\
    k1 = replace G (fst (raw_pair G c k)) /\
    k2 = replace G (snd (raw_pair G c k)) /\
    (Spec.sign_kept G (fst (raw_pair G c k)) * k1 +
     Spec.sign_kept G (snd (raw_pair G c k)) * k2 * Lambda) mod Fr G
    = k mod Fr G.
Proof. apply decomposition_signed. Qed.

Lemma reconstruction_with_kept_signs_witness :
  exists c : Z * Z,
    coefficients (globals_of 13 (mkBasis 4 1 1 (-3))) 6 = Ok c /\
    3 = replace (globals_of 13 (mkBasis 4 1 1 (-3)))
          (fst (raw_pair (globals_of 13 (mkBasis 4 1 1 (-3))) c 6)) /\
    1 = replace (globals_of 13 (mkBasis 4 1 1 (-3)))
          (snd (raw_pair (globals_of 13 (mkBasis 4 1 1 (-3))) c 6)) /\
    (Spec.sign_kept (globals_of 13 (mkBasis 4 1 1 (-3)))
       (fst (raw_pair (globals_of 13 (mkBasis 4 1 1 (-3))) c 6)) * 3 +
     Spec.sign_kept (globals_of 13 (mkBasis 4 1 1 (-3)))
       (snd (raw_pair (globals_of 13 (mkBasis 4 1 1 (-3))) c 6)) * 1 * 9)
    mod 13 = 6 mod 13.
Proof.
  apply (reconstruction_with_kept_signs
           (globals_of 13 (mkBasis 4 1 1 (-3))) 9 6 3 1);
    vm_compute; reflexivity.
Defined.

(** X7.  When the two vectors lie in the sublattice and have determinant
    [+Fr], with [Fr > 0] and [limit] derived as at lines 217-220, the
    function returns for every integer [k] a pair whose components have at
    most [limit] bits and satisfy [k1 + k2*lambda = k (mod Fr)] as they
    stand: no assertion fires. *)
Theorem decomposition_correct_when_oriented (G : globals) (Lambda k : Z) :
  0 < Fr G ->
  Spec.det (vecs G) = Fr G ->
  limit G = Reducer.limit (vecs G) ->
  Spec.in_lattice (Fr G) Lambda (a1 (vecs G)) (b1 (vecs G)) ->
  Spec.in_lattice (Fr G) Lambda (a2 (vecs G)) (b2 (vecs G)) ->
  exists k1 k2 : Z,
    get_endomorphism_scalar_decomposition G k = Ok (k1, k2) /\
    Sage.nbits k1 <= limit G /\
    Sage.nbits k2 <= limit G /\
    (k1 + k2 * Lambda) mod Fr G = k mod Fr G.
Proof.
  intros HF HD HL L1 L2.
  exact (decomposition_oriented_exact G HF HD HL Lambda k L1 L2).
Qed.

Lemma decomposition_correct_when_oriented_witness :
  exists k1 k2 : Z,
    get_endomorphism_scalar_decomposition
      (globals_of 13 (mkBasis 3 (-1) 1 4)) 11 = Ok (k1, k2) /\
    Sage.nbits k1 <= limit (globals_of 13 (mkBasis 3 (-1) 1 4)) /\
    Sage.nbits k2 <= limit (globals_of 13 (mkBasis 3 (-1) 1 4)) /\
    (k1 + k2 * 3) mod Fr (globals_of 13 (mkBasis 3 (-1) 1 4))
    = 11 mod Fr (globals_of 13 (mkBasis 3 (-1) 1 4)).
Proof.
  apply (decomposition_correct_when_oriented
           (globals_of 13 (mkBasis 3 (-1) 1 4)) 3 11).
  - vm_compute. reflexivity.
  - vm_compute. reflexivity.
  - reflexivity.
  - vm_compute. reflexivity.
  - vm_compute. reflexivity.
Defined.

(** X8.  The assertions of lines 233-234 make the bound a postcondition
    whatever the globals: any pair returned has [|k1| < 2^limit] and
    [|k2| < 2^limit]. *)
Theorem returned_pair_below_two_power_limit (G : globals) (k k1 k2 : Z) :
  get_endomorphism_scalar_decomposition G k = Ok (k1, k2) ->
  Z.abs k1 < 2 ^ limit G /\ Z.abs k2 < 2 ^ limit G.
Proof.
  intros H. destruct (Z.eq_dec (Fr G) 0) as [E0 | N0].
  { unfold get_endomorphism_scalar_decomposition in H.
    rewrite (coefficients_zero G k E0) in H. discriminate. }
  destruct (decomposition_cases G k N0) as (c & _ & [(F1 & F2 & E) | (_ & E)]);
    rewrite E in H; [ | discriminate].
  injection H as <- <-. split; apply nbits_lt_pow2; assumption.
Qed.

Lemma returned_pair_below_two_power_limit_witness :
  Z.abs (-1) < 2 ^ limit (globals_of 7 (mkBasis 2 (-1) 1 3)) /\
  Z.abs 0 < 2 ^ limit (globals_of 7 (mkBasis 2 (-1) 1 3)).
Proof.
  apply (returned_pair_below_two_power_limit
           (globals_of 7 (mkBasis 2 (-1) 1 3)) 6 (-1) 0).
  vm_compute. reflexivity.
Defined.

(** X9.  The function raises [ZeroDivisionError] exactly when
    [params.Fr] is zero; for any other modulus it returns a pair or
    raises [AssertionError]. *)
Theorem zero_division_iff_zero_modulus (G : globals) (k : Z) :
  (get_endomorphism_scalar_decomposition G k = Raise ZeroDivisionError
   <-> Fr G = 0) /\
  (Fr G <> 0 ->
   (exists k1 k2 : Z,
       get_endomorphism_scalar_decomposition G k = Ok (k1, k2)) \/
   get_endomorphism_scalar_decomposition G k = Raise AssertionError).
Proof.
  assert (R : Fr G <> 0 ->
              (exists k1 k2 : Z,
                  get_endomorphism_scalar_decomposition G k = Ok (k1, k2)) \/
              get_endomorphism_scalar_decomposition G k
              = Raise AssertionError).
  { intros N0.
    destruct (decomposition_cases G k N0)
      as (c & _ & [(_ & _ & E) | (_ & E)]).
    - left. eexists. eexists. exact E.
    - right. exact E. }
  split; [ | exact R]. split.
  - intros H. destruct (Z.eq_dec (Fr G) 0) as [E0 | N0]; [exact E0 | ].
    destruct (R N0) as [(k1 & k2 & E) | E]; rewrite E in H; discriminate.
  - intros E0. unfold get_endomorphism_scalar_decomposition.
    rewrite (coefficients_zero G k E0). reflexivity.
Qed.

Lemma zero_division_iff_zero_modulus_witness :
  (exists k1 k2 : Z,
      get_endomorphism_scalar_decomposition
        (mkGlobals 7 (mkBasis 2 (-1) 1 3) 2) 5 = Ok (k1, k2)) \/
  get_endomorphism_scalar_decomposition
    (mkGlobals 7 (mkBasis 2 (-1) 1 3) 2) 5 = Raise AssertionError.
Proof.
  apply (proj2 (zero_division_iff_zero_modulus
                  (mkGlobals 7 (mkBasis 2 (-1) 1 3) 2) 5)).
  cbn. lia.
Defined.

(** X10.  With a non-zero modulus and a non-negative bound, the scalar
    [0] is decomposed into [(0, 0)], whatever the vectors. *)
Theorem zero_decomposes_to_zero (G : globals) :
  Fr G <> 0 -> 0 <= limit G ->
  get_endomorphism_scalar_decomposition G 0 = Ok (0, 0).
Proof.
  intros N0 HL.
  assert (Hc : coefficients G 0 = Ok (0, 0)).
  { rewrite (coefficients_ok G 0 N0). rewrite !Z.mul_0_r.
    assert (E : Sage.round (Sage.quotient 0 (Fr G)) = 0).
    { unfold Sage.quotient.
      assert (Q : Qred (inject_Z 0 / inject_Z (Fr G)) = Qred 0).
      { apply Qred_complete. unfold Qdiv. apply Qmult_0_l. }
      rewrite Q. reflexivity. }
    rewrite E. reflexivity. }
  rewrite (decomposition_fits G 0 (0, 0) Hc).
  - reflexivity.
  - exact HL.
  - exact HL.
Qed.

Lemma zero_decomposes_to_zero_witness :
  get_endomorphism_scalar_decomposition
    (globals_of 13 (mkBasis 4 1 1 (-3))) 0 = Ok (0, 0).
Proof.
  apply (zero_decomposes_to_zero (globals_of 13 (mkBasis 4 1 1 (-3)))).
  - cbn. lia.
  - vm_compute. discriminate.
Defined.

Section Multiples.

Variable G : globals.
Hypothesis Fr_pos : 0 < Fr G.

Lemma coefficients_multiple (m : Z) :
  coefficients G (m * Fr G) = Ok (b2 (vecs G) * m, - b1 (vecs G) * m).
Proof.
  rewrite (coefficients_ok G (m * Fr G)) by lia.
  rewrite !Z.mul_assoc, !round_multiple by exact Fr_pos. reflexivity.
Qed.

Lemma raw_pair_multiple (m : Z) :
  raw_pair G (b2 (vecs G) * m, - b1 (vecs G) * m) (m * Fr G)
  = (m * (Fr G - Spec.det (vecs G)), 0).
Proof. unfold raw_pair, Spec.det. f_equal; ring. Qed.

End Multiples.

(** X11.  With determinant [+Fr], [Fr > 0] and a non-negative bound,
    every multiple of [Fr] is decomposed into [(0, 0)]; this covers the
    value [k = Fr] that [random.randint(0, params.Fr)] can draw. *)
Theorem multiples_decompose_to_zero (G : globals) (m : Z) :
  0 < Fr G -> Spec.det (vecs G) = Fr G -> 0 <= limit G ->
  get_endomorphism_scalar_decomposition G (m * Fr G) = Ok (0, 0).
Proof.
  intros HF HD HL.
  pose proof (coefficients_multiple G HF m) as Hc.
  pose proof (raw_pair_multiple G m) as Hr.
  rewrite HD, Z.sub_diag, Z.mul_0_r in Hr.
  rewrite (decomposition_fits G _ _ Hc); rewrite Hr.
  - reflexivity.
  - exact HL.
  - exact HL.
Qed.

Lemma multiples_decompose_to_zero_witness :
  get_endomorphism_scalar_decomposition
    (globals_of 13 (mkBasis 3 (-1) 1 4)) (1 * 13) = Ok (0, 0).
Proof.
  apply (multiples_decompose_to_zero (globals_of 13 (mkBasis 3 (-1) 1 4)) 1).
  - cbn. lia.
  - vm_compute. reflexivity.
  - vm_compute. discriminate.
Defined.

Lemma misoriented_modulus (G : globals) :
  0 < Fr G -> Spec.det (vecs G) = - Fr G -> limit G < Sage.nbits (Fr G) ->
  raw_pair G (b2 (vecs G), - b1 (vecs G)) (Fr G) = (2 * Fr G, 0) /\
  replace G (2 * Fr G) = - Fr G /\
  get_endomorphism_scalar_decomposition G (Fr G) = Raise AssertionError.
Proof.
  intros HF HD HL.
  pose proof (coefficients_multiple G HF 1) as Hc.
  pose proof (raw_pair_multiple G 1) as Hr.
  rewrite !Z.mul_1_r, Z.mul_1_l in Hc. rewrite !Z.mul_1_r, !Z.mul_1_l in Hr.
  rewrite HD in Hr.
  replace (Fr G - - Fr G) with (2 * Fr G) in Hr by ring.
  assert (Nb : Sage.nbits (2 * Fr G) = Sage.nbits (Fr G) + 1).
  { rewrite !nbits_pos by lia. rewrite Z.log2_double by lia. lia. }
  assert (Rp : replace G (2 * Fr G) = - Fr G).
  { unfold replace. rewrite Nb.
    destruct (Z.gtb_spec (Sage.nbits (Fr G) + 1) (limit G)); lia. }
  split; [exact Hr | ]. split; [exact Rp | ].
  rewrite (decomposition_stages G _ _ Hc), Hr. cbn [fst snd]. cbv zeta.
  rewrite Rp, nbits_opp.
  destruct (Z.leb_spec (Sage.nbits (Fr G)) (limit G)); [lia | reflexivity].
Qed.

(** X12.  With determinant [-Fr], [Fr > 0] and a bound below the bit
    length of [Fr], the scalar [k = Fr] -- which
    [random.randint(0, params.Fr)] can draw -- always trips the
    assertion: lines 227-228 give [(2*Fr, 0)], the replacement turns
    [2*Fr] into [-Fr], and [-Fr] does not fit. *)
Theorem modulus_fails_when_misoriented (G : globals) :
  0 < Fr G -> Spec.det (vecs G) = - Fr G -> limit G < Sage.nbits (Fr G) ->
  raw_pair G (b2 (vecs G), - b1 (vecs G)) (Fr G) = (2 * Fr G, 0) /\
  replace G (2 * Fr G) = - Fr G /\
  get_endomorphism_scalar_decomposition G (Fr G) = Raise AssertionError.
Proof. intros HF HD HL. exact (misoriented_modulus G HF HD HL). Qed.

Lemma modulus_fails_when_misoriented_witness :
  raw_pair (globals_of 13 (mkBasis 4 1 1 (-3))) (-3, - 1) 13 = (2 * 13, 0) /\
  replace (globals_of 13 (mkBasis 4 1 1 (-3))) (2 * 13) = - 13 /\
  get_endomorphism_scalar_decomposition
    (globals_of 13 (mkBasis 4 1 1 (-3))) 13 = Raise AssertionError.
Proof.
  apply (modulus_fails_when_misoriented (globals_of 13 (mkBasis 4 1 1 (-3)))).
  - cbn. lia.
  - vm_compute. reflexivity.
  - vm_compute. reflexivity.
Defined.

(** X13.  The bound of lines 217-220 covers the basis itself: when some
    vector is not zero, each of [a1], [b1], [a2], [b2] has at most
    [limit] bits. *)
Theorem basis_components_fit (B : basis) :
  0 < max_norm_squared B ->
  Sage.nbits (a1 B) <= Reducer.limit B /\
  Sage.nbits (b1 B) <= Reducer.limit B /\
  Sage.nbits (a2 B) <= Reducer.limit B /\
  Sage.nbits (b2 B) <= Reducer.limit B.
Proof.
  intros HM. rewrite limit_floor.
  assert (N : a1 B * a1 B + b1 B * b1 B <= max_norm_squared B /\
              a2 B * a2 B + b2 B * b2 B <= max_norm_squared B).
  { unfold max_norm_squared. rewrite !Z.pow_2_r. lia. }
  destruct N as [N1 N2].
  pose proof (Z.square_nonneg (a1 B)). pose proof (Z.square_nonneg (b1 B)).
  pose proof (Z.square_nonneg (a2 B)). pose proof (Z.square_nonneg (b2 B)).
  repeat split; apply nbits_sqrt; try exact HM; lia.
Qed.

Lemma basis_components_fit_witness :
  Sage.nbits 3 <= Reducer.limit (mkBasis 3 (-1) 1 4) /\
  Sage.nbits (-1) <= Reducer.limit (mkBasis 3 (-1) 1 4) /\
  Sage.nbits 1 <= Reducer.limit (mkBasis 3 (-1) 1 4) /\
  Sage.nbits 4 <= Reducer.limit (mkBasis 3 (-1) 1 4).
Proof.
  apply (basis_components_fit (mkBasis 3 (-1) 1 4)). vm_compute. reflexivity.
Defined.

(** ** The test loop and the script as a whole *)

Section TestLoop.

Variable G : globals.
Variable randint : nat -> Z.

Lemma run_tests_ok (i n : nat) :
  Tests.run_tests G randint i n = Ok tt <->
  forall j : nat, (i <= j < i + n)%nat ->
    exists p : Z * Z,
      get_endomorphism_scalar_decomposition G (randint j) = Ok p.
Proof.
  revert i. induction n as [ | n IH]; intros i.
  - cbn [Tests.run_tests]. split; [intros _ j Hj; lia | reflexivity].
  - cbn [Tests.run_tests]. split.
    + intros H j Hj.
      destruct (get_endomorphism_scalar_decomposition G (randint i))
        as [p | e] eqn:E; [ | discriminate].
      cbn [bind] in H. destruct (Nat.eq_dec j i) as [-> | Nj].
      * exists p. exact E.
      * apply (proj1 (IH (S i)) H). lia.
    + intros H. destruct (H i ltac:(lia)) as [p E]. rewrite E. cbn [bind].
      apply IH. intros j Hj. apply H. lia.
Qed.

Lemma run_tests_raise (i n : nat) (e : exn) :
  Tests.run_tests G randint i n = Raise e <->
  exists j : nat,
    (i <= j < i + n)%nat /\
    get_endomorphism_scalar_decomposition G (randint j) = Raise e /\
    forall j' : nat, (i <= j' < j)%nat ->
      exists p : Z * Z,
        get_endomorphism_scalar_decomposition G (randint j') = Ok p.
Proof.
  revert i. induction n as [ | n IH]; intros i.
  - cbn [Tests.run_tests]. split; [discriminate | intros (j & Hj & _); lia].
  - cbn [Tests.run_tests]. split.
    + intros H.
      destruct (get_endomorphism_scalar_decomposition G (randint i))
        as [p | e'] eqn:E; cbn [bind] in H.
      * apply IH in H as (j & Hj & Ej & Before).
        exists j. split; [lia | ]. split; [exact Ej | ].
        intros j' Hj'. destruct (Nat.eq_dec j' i) as [-> | Nj].
        -- exists p. exact E.
        -- apply Before. lia.
      * injection H as ->. exists i. split; [lia | ]. split; [exact E | ].
        intros j' Hj'. lia.
    + intros (j & Hj & Ej & Before).
      destruct (Nat.eq_dec j i) as [-> | Nj].
      * rewrite Ej. reflexivity.
      * destruct (Before i ltac:(lia)) as [p E]. rewrite E. cbn [bind].
        apply IH. exists j. split; [lia | ]. split; [exact Ej | ].
        intros j' Hj'. apply Before. lia.
Qed.

End TestLoop.

(** X14.  The test loop prints [FINISH] exactly when each of its 100
    draws is decomposed without exception; otherwise it stops at the first
    draw that raises, with the exception of that draw. *)
Theorem tests_stop_at_first_failure (G : globals) (randint : nat -> Z) :
  (Tests.tests G randint = Ok tt <->
   forall j : nat, (j < 100)%nat ->
     exists p : Z * Z,
       get_endomorphism_scalar_decomposition G (randint j) = Ok p) /\
  (forall e : exn,
      Tests.tests G randint = Raise e <->
      exists j : nat,
        (j < 100)%nat /\
        get_endomorphism_scalar_decomposition G (randint j) = Raise e /\
        forall j' : nat, (j' < j)%nat ->
          exists p : Z * Z,
            get_endomorphism_scalar_decomposition G (randint j') = Ok p).
Proof.
  unfold Tests.tests, Tests.NUM_OF_TESTS. split.
  - rewrite run_tests_ok. split; intros H j Hj; apply H; lia.
  - intros e. rewrite run_tests_raise. split.
    + intros (j & Hj & Ej & Before). exists j.
      split; [lia | ]. split; [exact Ej | ].
      intros j' Hj'. apply Before. lia.
    + intros (j & Hj & Ej & Before). exists j.
      split; [lia | ]. split; [exact Ej | ].
      intros j' Hj'. apply Before. lia.
Qed.

(** X15.  With vectors of determinant [+Fr], [Fr > 0] and the bound of
    lines 217-220, the test loop prints [FINISH] whatever numbers are
    drawn. *)
Theorem tests_finish_when_oriented (G : globals) (randint : nat -> Z) :
  0 < Fr G ->
  Spec.det (vecs G) = Fr G ->
  limit G = Reducer.limit (vecs G) ->
  Tests.tests G randint = Ok tt.
Proof.
  intros HF HD HL. unfold Tests.tests. apply run_tests_ok. intros j _.
  destruct (decomposition_oriented G HF HD HL (randint j))
    as (c & _ & _ & _ & E).
  eexists. exact E.
Qed.

Lemma tests_finish_when_oriented_witness :
  Tests.tests (globals_of 13 (mkBasis 3 (-1) 1 4)) (fun i => Z.of_nat i)
  = Ok tt.
Proof.
  apply (tests_finish_when_oriented (globals_of 13 (mkBasis 3 (-1) 1 4))).
  - cbn. lia.
  - vm_compute. reflexivity.
  - reflexivity.
Defined.

(** X16.  With vectors of determinant [-Fr], [Fr > 0] and a bound below
    the bit length of [Fr], the test loop raises [AssertionError] as soon
    as one of its draws is [Fr] itself, unless an earlier draw already
    raised it. *)
Theorem tests_fail_on_modulus_when_misoriented
    (G : globals) (randint : nat -> Z) (j : nat) :
  0 < Fr G -> Spec.det (vecs G) = - Fr G -> limit G < Sage.nbits (Fr G) ->
  (j < 100)%nat -> randint j = Fr G ->
  Tests.tests G randint = Raise AssertionError.
Proof.
  intros HF HD HL Hj Ej.
  destruct (misoriented_modulus G HF HD HL) as (_ & _ & E).
  unfold Tests.tests, Tests.NUM_OF_TESTS in *.
  destruct (Tests.run_tests G randint 0 100) as [[] | e] eqn:T.
  - pose proof (proj1 (run_tests_ok G randint 0 100) T) as T'.
    destruct (T' j ltac:(lia)) as [p Hp]. rewrite Ej, E in Hp. discriminate.
  - destruct (proj1 (run_tests_raise G randint 0 100 e) T) as (i & _ & Ei & _).
    f_equal. apply (decomposition_raises G (randint i)); [lia | exact Ei].
Qed.

Lemma tests_fail_on_modulus_when_misoriented_witness :
  Tests.tests (globals_of 13 (mkBasis 4 1 1 (-3))) (fun i => 13 - Z.of_nat i)
  = Raise AssertionError.
Proof.
  apply (tests_fail_on_modulus_when_misoriented
           (globals_of 13 (mkBasis 4 1 1 (-3))) (fun i => 13 - Z.of_nat i) 0).
  - cbn. lia.
  - vm_compute. reflexivity.
  - vm_compute. reflexivity.
  - lia.
  - reflexivity.
Defined.

(** X17.  For [Fr > 0] and [0 <= lambda < Fr] the script from line 166 on
    raises [ZeroDivisionError] exactly when
    [gcd(Fr, lambda) >= isqrt(Fr)], and then in the loop; otherwise it
    prints [FINISH] or raises [AssertionError] in a test. *)
Theorem script_outcome (Fr Lambda : Z) (randint : nat -> Z) :
  0 < Fr -> 0 <= Lambda < Fr ->
  ((exists n : nat,
       Tests.script n Fr Lambda randint = Some (Raise ZeroDivisionError))
   <-> bound Fr <= Z.gcd Fr Lambda) /\
  (Z.gcd Fr Lambda < bound Fr ->
   exists n : nat,
     Tests.script n Fr Lambda randint = Some (Ok tt) \/
     Tests.script n Fr Lambda randint = Some (Raise AssertionError)).
Proof.
  intros HF HL.
  assert (Cases : forall (n : nat) (B : basis),
             loop n Fr Lambda (init Fr Lambda) = Some (Ok B) ->
             Tests.script n Fr Lambda randint = Some (Ok tt) \/
             Tests.script n Fr Lambda randint = Some (Raise AssertionError)).
  { intros n B H. unfold Tests.script.
    rewrite (basis_reduction_nonneg Fr Lambda n ltac:(lia)), H.
    unfold Tests.tests.
    destruct (Tests.run_tests (globals_of Fr B) randint 0 Tests.NUM_OF_TESTS)
      as [[] | e] eqn:T; [left; reflexivity | right].
    destruct (proj1 (run_tests_raise _ _ _ _ e) T) as (i & _ & Ei & _).
    do 2 f_equal.
    apply (decomposition_raises (globals_of Fr B) (randint i));
      [cbn; lia | exact Ei]. }
  split; [split | ].
  - intros (n & H). unfold Tests.script in H.
    rewrite (basis_reduction_nonneg Fr Lambda n ltac:(lia)) in H.
    destruct (loop n Fr Lambda (init Fr Lambda)) as [[B | e] | ] eqn:L;
      [ | | discriminate].
    + exfalso. destruct (Cases n B L) as [C | C];
        unfold Tests.script in C;
        rewrite (basis_reduction_nonneg Fr Lambda n ltac:(lia)), L in C;
        congruence.
    + eapply loop_raise_gcd; eassumption.
  - intros Hg.
    destruct (proj2 (proj2 (loop_outcome_gcd Fr Lambda HF HL)) Hg)
      as (n & L).
    exists n. unfold Tests.script.
    rewrite (basis_reduction_nonneg Fr Lambda n ltac:(lia)), L. reflexivity.
  - intros Hg.
    destruct (proj2 (proj1 (loop_outcome_gcd Fr Lambda HF HL)) Hg)
      as (n & B & L).
    exists n. exact (Cases n B L).
Qed.

Lemma script_outcome_witness :
  ((exists n : nat,
       Tests.script n 13 3 (fun i => Z.of_nat i)
       = Some (Raise ZeroDivisionError))
   <-> bound 13 <= Z.gcd 13 3) /\
  (Z.gcd 13 3 < bound 13 ->
   exists n : nat,
     Tests.script n 13 3 (fun i => Z.of_nat i) = Some (Ok tt) \/
     Tests.script n 13 3 (fun i => Z.of_nat i)
     = Some (Raise AssertionError)).
Proof. apply (script_outcome 13 3 (fun i => Z.of_nat i)); lia. Defined.

(** ** The cofactor of the offset generator *)

Section Cofactors.

Import Offset.

Lemma enumerate_from_app {A : Type} (i : Z) (a b : list A) :
  enumerate_from i (a ++ b)
  = enumerate_from i a ++ enumerate_from (i + Z.of_nat (length a)) b.
Proof.
  revert i. induction a as [ | x a IH]; intros i.
  - cbn [app enumerate_from length]. rewrite Z.add_0_r. reflexivity.
  - cbn [app enumerate_from length]. rewrite IH. do 3 f_equal. lia.
Qed.

Lemma product_app (a b : list (Z * Z)) :
  product (a ++ b) = product a * product b.
Proof.
  induction a as [ | x a IH]; cbn [app product]; [ring | ].
  rewrite IH. ring.
Qed.

(** Away from the distinguished position both lambdas multiply by the
    prime power. *)
Lemma fold_drop_elsewhere (last i acc : Z) (l : list (Z * Z)) :
  last < i \/ i + Z.of_nat (length l) <= last ->
  fold_left (drop_one_of_last last) (enumerate_from i l) acc
  = acc * product l.
Proof.
  revert i acc. induction l as [ | x l IH]; intros i acc H.
  - cbn. ring.
  - cbn [enumerate_from fold_left product length] in *.
    rewrite IH by lia. unfold drop_one_of_last.
    destruct (Z.eqb_spec i last); [lia | ]. cbn [negb]. ring.
Qed.

Lemma fold_skip_elsewhere (to_skip i acc : Z) (l : list (Z * Z)) :
  to_skip < i \/ i + Z.of_nat (length l) <= to_skip ->
  fold_left (skip_one to_skip) (enumerate_from i l) acc = acc * product l.
Proof.
  revert i acc. induction l as [ | x l IH]; intros i acc H.
  - cbn. ring.
  - cbn [enumerate_from fold_left product length] in *.
    rewrite IH by lia. unfold skip_one.
    destruct (Z.eqb_spec i to_skip); [lia | ]. cbn [negb]. ring.
Qed.

Lemma neg_index_split {A : Type} (l : list A) (n : nat) (x : A) :
  (1 <= n)%nat ->
  neg_index l n = Some x ->
  exists a b : list A, l = a ++ x :: b /\ length b = (n - 1)%nat.
Proof.
  intros Hn H. unfold neg_index in H.
  destruct (Nat.leb_spec n (length l)) as [Le | Gt]; [ | discriminate].
  apply nth_error_split in H as (a & b & E & La).
  exists a, b. split; [exact E | ].
  rewrite E, length_app in La. cbn [length] in La. rewrite E, length_app in Le.
  cbn [length] in Le. lia.
Qed.

Lemma cofactor_2_prime_split (Fr : Z) (a : list (Z * Z)) (p e : Z) :
  1 <= e ->
  fold_left (drop_one_of_last (Z.of_nat (length (a ++ [(p, e)])) - 1))
    (enumerate (a ++ [(p, e)])) 1 * Fr * p
  = Fr * product (a ++ [(p, e)]).
Proof.
  intros He. unfold enumerate.
  rewrite enumerate_from_app, fold_left_app, length_app.
  cbn [length enumerate_from fold_left].
  rewrite fold_drop_elsewhere by lia.
  unfold drop_one_of_last. cbn [fst snd].
  destruct (Z.eqb_spec (0 + Z.of_nat (length a))
              (Z.of_nat (length a + 1) - 1)) as [_ | N]; [ | lia].
  cbn [negb]. rewrite product_app. cbn [product fst snd].
  replace (p ^ e) with (p ^ (e - 1) * p).
  - ring.
  - rewrite <- (Z.pow_1_r p) at 2. rewrite <- Z.pow_add_r by lia.
    f_equal. lia.
Qed.

Lemma cofactor_2_composite_split (a : list (Z * Z)) (x z : Z * Z) :
  cofactor_2_composite (a ++ [x; z]) * fst x ^ snd x
  = product (a ++ [x; z]).
Proof.
  unfold cofactor_2_composite, enumerate.
  rewrite enumerate_from_app, fold_left_app, length_app.
  cbn [length enumerate_from fold_left].
  rewrite fold_skip_elsewhere by lia.
  unfold skip_one.
  destruct (Z.eqb_spec (0 + Z.of_nat (length a))
              (Z.of_nat (length a + 2) - 2)) as [_ | N]; [ | lia].
  destruct (Z.eqb_spec (0 + Z.of_nat (length a) + 1)
              (Z.of_nat (length a + 2) - 2)) as [E | _]; [lia | ].
  cbn [negb]. rewrite product_app. cbn [product]. ring.
Qed.

End Cofactors.

(** X18.  On a curve of prime order (lines 84-90), for a factor list with
    exponents at least 1 as [factor] gives them: an empty list raises
    [IndexError] at line 85; when the last prime [p] is [Fr] the assertion
    of line 86 fails; otherwise [offset_2_order] is [p] and
    [cofactor_2 * offset_2_order] is [Fr] times the number the list
    factors -- the order of the curve over the extension, so that
    [cofactor_2 * P] is killed by [offset_2_order]. *)
Theorem prime_order_cofactor (Fr : Z) (factors : list (Z * Z)) :
  Forall (fun x => 1 <= snd x) factors ->
  match Offset.neg_index factors 1 with
  | None => Offset.offset_prime_order Fr factors = Raise IndexError
  | Some (p, e) =>
      (p = Fr ->
       Offset.offset_prime_order Fr factors = Raise AssertionError) /\
      (p <> Fr ->
       exists cofactor_2 : Z,
         Offset.offset_prime_order Fr factors = Ok (p, cofactor_2) /\
         cofactor_2 * p = Fr * Offset.product factors)
  end.
Proof.
  intros Hall. unfold Offset.offset_prime_order, Offset.index_from_end.
  destruct (Offset.neg_index factors 1) as [[p e] | ] eqn:H; [ | reflexivity].
  cbn [bind fst]. unfold assert. split.
  - intros ->. rewrite Z.eqb_refl. reflexivity.
  - intros Np. destruct (Z.eqb_spec p Fr) as [ | _]; [contradiction | ].
    cbn [negb bind]. eexists. split; [reflexivity | ].
    apply neg_index_split in H as (a & b & -> & Lb); [ | lia].
    destruct b; [ | discriminate].
    apply cofactor_2_prime_split.
    apply Forall_app in Hall as [_ Hl]. inversion Hl as [ | ? ? He _].
    exact He.
Qed.

Lemma prime_order_cofactor_witness :
  (7 = 11 ->
   Offset.offset_prime_order 11 [(3, 2); (5, 1); (7, 2)]
   = Raise AssertionError) /\
  (7 <> 11 ->
   exists cofactor_2 : Z,
     Offset.offset_prime_order 11 [(3, 2); (5, 1); (7, 2)]
     = Ok (7, cofactor_2) /\
     cofactor_2 * 7 = 11 * Offset.product [(3, 2); (5, 1); (7, 2)]).
Proof.
  apply (prime_order_cofactor 11 [(3, 2); (5, 1); (7, 2)]).
  repeat constructor; cbn; lia.
Defined.

(** X19.  On a curve with a cofactor (lines 122-126): when the factor
    list, with exponents at least 1, has at least two entries and the one before the last is
    [(p, e)], [offset_2_order] is [p] and [cofactor_2] is the number the
    list factors with the whole power [p^e] left out; so
    [cofactor_2 * offset_2_order] is that number when [e = 1]. *)
Theorem composite_order_cofactor (factors : list (Z * Z)) (p e : Z) :
  Forall (fun x => 1 <= snd x) factors ->
  Offset.neg_index factors 2 = Some (p, e) ->
  Offset.offset_2_order_composite factors = Some p /\
  Offset.cofactor_2_composite factors * p ^ e = Offset.product factors /\
  (e = 1 ->
   Offset.cofactor_2_composite factors * p = Offset.product factors).
Proof.
  intros _ H.
  assert (O : Offset.offset_2_order_composite factors = Some p).
  { unfold Offset.offset_2_order_composite. rewrite H. reflexivity. }
  apply neg_index_split in H as (a & b & -> & Lb); [ | lia].
  destruct b as [ | z [ | ? ?]]; try discriminate.
  pose proof (cofactor_2_composite_split a (p, e) z) as C. cbn [fst snd] in C.
  split; [exact O | ]. split; [exact C | ].
  intros ->. rewrite Z.pow_1_r in C. exact C.
Qed.

Lemma composite_order_cofactor_witness :
  Offset.offset_2_order_composite [(3, 1); (11, 2); (5, 1); (13, 1)] = Some 5 /\
  Offset.cofactor_2_composite [(3, 1); (11, 2); (5, 1); (13, 1)] * 5 ^ 1
  = Offset.product [(3, 1); (11, 2); (5, 1); (13, 1)] /\
  (1 = 1 ->
   Offset.cofactor_2_composite [(3, 1); (11, 2); (5, 1); (13, 1)] * 5
   = Offset.product [(3, 1); (11, 2); (5, 1); (13, 1)]).
Proof.
  apply (composite_order_cofactor [(3, 1); (11, 2); (5, 1); (13, 1)] 5 1).
  - repeat constructor; cbn; lia.
  - reflexivity.
Defined.

(** X20.  The numbers of lines 62-64: with [num_of_points = Fr = n] the
    order computed for the curve over the quadratic extension is
    [(Fq + 1)^2 - t^2] for the trace [t = Fq + 1 - n], as the comment
    derives, and the cofactor [2*Fq + 2 - n] is odd exactly when [n]
    is. *)
Theorem extension_order (Fq n : Z) :
  Offset.num_of_points_ext Fq n n = (Fq + 1) ^ 2 - (Fq + 1 - n) ^ 2 /\
  Offset.num_of_points_ext Fq n n
  = Fq ^ 2 + 1 - ((Fq + 1 - n) ^ 2 - 2 * Fq) /\
  Z.odd (Offset.cofactor Fq n) = Z.odd n.
Proof.
  unfold Offset.num_of_points_ext, Offset.cofactor.
  split; [ring | ]. split; [ring | ].
  replace (2 * Fq + 2 - n) with (2 * (Fq + 1) - n) by ring.
  rewrite Z.odd_sub, Z.odd_mul. reflexivity.
Qed.

(** ** The orientation by the parity of the stop, and periodicity *)

Section Parity.

Variables Fr Lambda : Z.

Lemma rotations_bezout (n : nat) (s : state) :
  rotations n (init Fr Lambda) = Ok s ->
  Spec.bezout Fr Lambda s /\
  x1 s * y2 s - x2 s * y1 s = (-1) ^ Z.of_nat n.
Proof.
  revert s. induction n as [ | n IH]; intros s H.
  - cbn [rotations] in H. injection H as <-.
    split; [apply init_bezout | reflexivity].
  - cbn [rotations] in H.
    destruct (rotations n (init Fr Lambda)) as [s0 | e]; [ | discriminate].
    cbn [bind] in H. destruct (IH s0 eq_refl) as [Bz U].
    apply rotate_ok in H as [_ ->].
    split; [apply rotated_bezout, Bz | ].
    rewrite Nat2Z.inj_succ, Z.pow_succ_r by lia. rewrite <- U.
    unfold Spec.rotated. cbn [x1 y1 x2 y2]. ring.
Qed.

Lemma choose_det (n : nat) (s s2 : state) :
  rotations n (init Fr Lambda) = Ok s ->
  rotate s = Ok s2 ->
  Spec.det (Spec.choose (Spec.first_candidate s)
                        (Spec.pre_stop_candidate Fr Lambda s)
                        (Spec.next_candidate s2))
  = (if Spec.norm2 (Spec.pre_stop_candidate Fr Lambda s)
        <=? Spec.norm2 (Spec.next_candidate s2)
     then 1 else -1) * (-1) ^ Z.of_nat n * Fr.
Proof.
  intros Hr R. destruct (rotations_bezout n s Hr) as [[Bu Bv] U].
  assert (Hr2 : rotations (S n) (init Fr Lambda) = Ok s2).
  { cbn [rotations]. rewrite Hr. exact R. }
  destruct (rotations_bezout (S n) s2 Hr2) as [[Bu2 _] U2].
  rewrite Nat2Z.inj_succ, Z.pow_succ_r in U2 by lia.
  apply rotate_ok in R as [_ E2].
  assert (X2 : x2 s2 = x1 s) by (rewrite E2; reflexivity).
  assert (Y2 : y2 s2 = y1 s) by (rewrite E2; reflexivity).
  rewrite X2, Y2 in U2. clear E2.
  unfold Spec.choose, Spec.det, Spec.first_candidate, Spec.next_candidate,
    Spec.pre_stop_candidate.
  cbn [fst snd].
  match goal with |- context [if ?c then _ else _] => destruct c end;
    cbn [a1 b1 a2 b2]; rewrite <- ?U.
  - rewrite Bu. ring.
  - replace (-1 * (x1 s * y2 s - x2 s * y1 s) * Fr)
      with ((x1 s2 * y1 s - x1 s * y1 s2) * Fr) by (rewrite U2, U; ring).
    rewrite Bu, Bu2. ring.
Qed.

End Parity.

(** X21.  The orientation of the basis returned is fixed by the parity of
    the stopping step [n] and by the branch of the tie-break: the
    determinant [a1*b2 - a2*b1] is [(-1)^n * Fr] when the pre-stop
    candidate is taken (lines 193-196) and [(-1)^(n+1) * Fr] otherwise
    (lines 198-199). *)
Theorem determinant_by_parity (Fr Lambda : Z) (fuel : nat) (B : basis) :
  loop fuel Fr Lambda (init Fr Lambda) = Some (Ok B) ->
  exists (n : nat) (s s2 : state),
    Spec.stops_at Fr Lambda n s /\
    rotate s = Ok s2 /\
    Spec.det B
    = (if Spec.norm2 (Spec.pre_stop_candidate Fr Lambda s)
          <=? Spec.norm2 (Spec.next_candidate s2)
       then 1 else -1) * (-1) ^ Z.of_nat n * Fr.
Proof.
  intros H.
  destruct (loop_first_stop Fr Lambda fuel _ B H)
    as (n & s & Hn & Hr & Hu & Hfirst & Hs).
  rewrite select_choose in Hs.
  destruct (rotate s) as [s2 | e] eqn:R; [ | discriminate].
  cbn [bind] in Hs. injection Hs as <-.
  exists n, s, s2. split; [ | split; [exact R | ]].
  - unfold Spec.stops_at. split; [lia | ]. split; [exact Hr | ].
    split; assumption.
  - apply choose_det; assumption.
Qed.

Lemma determinant_by_parity_witness :
  exists (n : nat) (s s2 : state),
    Spec.stops_at 13 9 n s /\
    rotate s = Ok s2 /\
    Spec.det (mkBasis 4 1 1 (-3))
    = (if Spec.norm2 (Spec.pre_stop_candidate 13 9 s)
          <=? Spec.norm2 (Spec.next_candidate s2)
       then 1 else -1) * (-1) ^ Z.of_nat n * 13.
Proof.
  apply (determinant_by_parity 13 9 3 (mkBasis 4 1 1 (-3))).
  vm_compute. reflexivity.
Defined.

Section Periodic.

Lemma round_shift (n d m : Z) :
  0 < d -> Z.odd d = true ->
  Sage.round (Sage.quotient (n + m * d) d)
  = Sage.round (Sage.quotient n d) + m.
Proof.
  intros Hd Ho.
  destruct (round_quotient n d Hd) as [R _].
  destruct (round_quotient (n + m * d) d Hd) as [R' _].
  set (c := Sage.round (Sage.quotient n d)) in *.
  set (c' := Sage.round (Sage.quotient (n + m * d) d)) in *.
  clearbody c c'.
  apply Z.odd_spec in Ho as [h Hh].
  replace (c' * d - (n + m * d)) with ((c' - m) * d - n) in R' by ring.
  assert (S1 : 2 * Z.abs (c * d - n) < d) by lia.
  assert (S2 : 2 * Z.abs ((c' - m) * d - n) < d) by lia.
  assert (D : Z.abs ((c' - m - c) * d) < d).
  { replace ((c' - m - c) * d) with (((c' - m) * d - n) - (c * d - n)) by ring.
    lia. }
  rewrite Z.abs_mul, (Z.abs_eq d) in D by lia.
  assert (Z.abs (c' - m - c) < 1) by nia. lia.
Qed.

Lemma coefficients_shift (G : globals) (k m : Z) :
  0 < Fr G -> Z.odd (Fr G) = true ->
  coefficients G (k + m * Fr G)
  = (c <- coefficients G k ;;
     Ok (fst c + b2 (vecs G) * m, snd c - b1 (vecs G) * m)).
Proof.
  intros HF Ho. rewrite !coefficients_ok by lia. cbn [bind fst snd].
  replace (b2 (vecs G) * (k + m * Fr G))
    with (b2 (vecs G) * k + (b2 (vecs G) * m) * Fr G) by ring.
  replace (- b1 (vecs G) * (k + m * Fr G))
    with (- b1 (vecs G) * k + (- b1 (vecs G) * m) * Fr G) by ring.
  rewrite !round_shift by assumption. do 2 f_equal. ring.
Qed.

End Periodic.

(** X22.  With determinant [+Fr] and an odd [Fr > 0] the function depends
    on [k] modulo [Fr] only: for all integers [k] and [m] it behaves at
    [k + m*Fr] exactly as at [k]. *)
Theorem decomposition_periodic (G : globals) (k m : Z) :
  0 < Fr G -> Z.odd (Fr G) = true -> Spec.det (vecs G) = Fr G ->
  get_endomorphism_scalar_decomposition G (k + m * Fr G)
  = get_endomorphism_scalar_decomposition G k.
Proof.
  intros HF Ho HD.
  pose proof (coefficients_shift G k m HF Ho) as Hs.
  pose proof (coefficients_ok G k ltac:(lia)) as Hc.
  rewrite Hc in Hs. cbn [bind fst snd] in Hs.
  remember (Sage.round (Sage.quotient (b2 (vecs G) * k) (Fr G))) as c1.
  remember (Sage.round (Sage.quotient (- b1 (vecs G) * k) (Fr G))) as c2.
  rewrite (decomposition_stages G _ _ Hs), (decomposition_stages G _ _ Hc).
  assert (E : raw_pair G (c1 + b2 (vecs G) * m, c2 - b1 (vecs G) * m)
                (k + m * Fr G)
              = raw_pair G (c1, c2) k).
  { unfold raw_pair. rewrite <- HD. unfold Spec.det. f_equal; ring. }
  rewrite E. reflexivity.
Qed.

Lemma decomposition_periodic_witness :
  get_endomorphism_scalar_decomposition
    (globals_of 13 (mkBasis 3 (-1) 1 4)) (5 + 2 * 13)
  = get_endomorphism_scalar_decomposition
      (globals_of 13 (mkBasis 3 (-1) 1 4)) 5.
Proof.
  apply (decomposition_periodic (globals_of 13 (mkBasis 3 (-1) 1 4)) 5 2).
  - cbn. lia.
  - reflexivity.
  - vm_compute. reflexivity.
Defined.
